(** * Gündem Asistanı: the audio briefing pipeline, favorites and summarization

    A shallow embedding of
    - [src/App.tsx]: the [ResultCard] audio handler [handleAudioAction]
      with its React state and refs, and the favorites handlers of [App];
    - [src/unnamed/part_000] (the Gemini service):
      [summarizeNewsWithGoogleSearch] and [generateSpeech];
    - [src/types.ts]: [GroundingChunk], [Result], [FavoriteItem];
    and of the PCM decoder [utils/audio], which [App.tsx] imports but whose
    source file is not available: it is modelled from the specification. *)

From Stdlib Require Import String Ascii Strings.Byte.
From Stdlib Require Import ZArith QArith Lia Bool Arith List.
From Stdlib Require Import Sorting.Permutation Sorting.Sorted.
From Equations Require Import Equations.
Import ListNotations.

(* ===================================================================== *)
(** * The PCM decoder *)
(* ===================================================================== *)

Module Audio.

(** [App.tsx] imports [decode] and [decodeAudioData] from [utils/audio];
    that file is not among the sources, so every definition of this module
    follows the specification (sections 3 and 4.1). *)

(** ** Base64 *)

(** Modelled from the spec: the value of one character of the base64
    alphabet; [None] for a character outside it. *)
Definition sextet (a : ascii) : option N :=
  let n := N_of_ascii a in
  if (65 <=? n)%N && (n <=? 90)%N then Some (n - 65)%N
  else if (97 <=? n)%N && (n <=? 122)%N then Some (n - 71)%N
  else if (48 <=? n)%N && (n <=? 57)%N then Some (n + 4)%N
  else if (n =? 43)%N then Some 62%N
  else if (n =? 47)%N then Some 63%N
  else None.

Definition byte_of_N (n : N) : byte :=
  match Byte.of_N (n mod 256) with
  | Some b => b
  | None => x00
  end.

(** The 24 bits carried by four sextets. *)
Definition quad (a b c d : N) : N :=
  (a * 262144 + b * 4096 + c * 64 + d)%N.

Definition quad_bytes (q : N) : list byte :=
  [byte_of_N (q / 65536); byte_of_N (q / 256); byte_of_N q].

Definition is_pad (a : ascii) : bool := Ascii.eqb a "="%char.

(** Modelled from the spec: standard base64, four characters at a time;
    padding is accepted in the last group only, anything else is
    malformed. *)
Fixpoint decode_quads (l : list ascii) : option (list byte) :=
  match l with
  | [] => Some []
  | a :: b :: c :: d :: rest =>
      match sextet a, sextet b with
      | Some x, Some y =>
          if is_pad d then
            match rest with
            | [] =>
                if is_pad c then Some (firstn 1 (quad_bytes (quad x y 0 0)))
                else match sextet c with
                     | Some z => Some (firstn 2 (quad_bytes (quad x y z 0)))
                     | None => None
                     end
            | _ :: _ => None
            end
          else
            match sextet c, sextet d, decode_quads rest with
            | Some z, Some w, Some bs => Some (quad_bytes (quad x y z w) ++ bs)
            | _, _, _ => None
            end
      | _, _ => None
      end
  | _ => None
  end.

(** Modelled from the spec: [decode] of [utils/audio] (the spec's
    [decodeBase64]) is imported by [App.tsx] but its source is missing.
    "Standard base64 decode.  Fails with DecodeError(InvalidEncoding) if the
    input contains characters outside the base64 alphabet or malformed
    padding."  [None] is the thrown [DecodeError]. *)
Definition decode (payload : string) : option (list byte) :=
  decode_quads (list_ascii_of_string payload).

(** ** 16-bit samples *)

(** Modelled from the spec: two bytes read as a little-endian signed 16-bit
    integer. *)
Definition int16_le (lo hi : byte) : Z :=
  let u := (Z.of_N (Byte.to_N lo) + 256 * Z.of_N (Byte.to_N hi))%Z in
  if (32768 <=? u)%Z then (u - 65536)%Z else u.

(** Modelled from the spec: "reads the byte sequence two bytes at a time as
    little-endian signed 16-bit integers"; a trailing odd byte holds no
    sample. *)
Fixpoint samples (raw : list byte) : list Z :=
  match raw with
  | lo :: hi :: rest => int16_le lo hi :: samples rest
  | _ => []
  end.

(** Modelled from the spec: "scales each to floating point by dividing by
    32768.0".  A quotient
    k / 2^15 with |k| <= 2^15 is exactly representable in IEEE-754 single
    and double precision, so the rational is the floating-point value. *)
Definition scale (s : Z) : Q := Qmake s 32768.

(** Modelled from the spec: "one sample per channel in round-robin order
    across channelCount": the samples are cut into frames of [c] samples;
    what is left after the last whole frame is dropped. *)
Equations? frames (c : nat) (l : list Q) : list (list Q) by wf (length l) lt :=
  frames 0 l := [];
  frames (S k) l with le_lt_dec (S k) (length l) => {
    | left _ := firstn (S k) l :: frames (S k) (skipn (S k) l);
    | right _ := [] }.
Proof.
  change (List.length (skipn (S k) l) < List.length l)%nat.
  rewrite length_skipn. lia.
Qed.

Record AudioBuffer : Type := mkAudioBuffer {
  sampleRate : Z;
  numberOfChannels : nat;
  channelFrames : list (list Q)
}.

(** Modelled from the spec: [decodeAudioData] of [utils/audio] (the spec's
    [pcmToAudioBuffer]) is imported by [App.tsx] but its source is missing.
    "If raw.length is not evenly divisible by 2 * channelCount, the trailing
    incomplete frame is discarded (documented truncation policy, not an
    error)": the function is total. *)
Definition pcmToAudioBuffer (raw : list byte) (rate : Z) (channelCount : nat)
  : AudioBuffer :=
  mkAudioBuffer rate channelCount
    (frames channelCount (map scale (samples raw))).

Definition frameCount (b : AudioBuffer) : nat := length (channelFrames b).

Definition in_unit_range (x : Q) : Prop := (-1 <= x)%Q /\ (x <= 1)%Q.

End Audio.

(* ===================================================================== *)
(** * The Gemini service ([src/unnamed/part_000]) *)
(* ===================================================================== *)

Module Service.

(** [types.ts] *)
Record Web : Type := mkWeb { uri : string; title : string }.
Record GroundingChunk : Type := mkChunk { web : option Web }.

(** The response of [ai.models.generateContent], as far as the service
    reads it.  Every property the code reaches through [?.] is optional. *)
Record Blob : Type := mkBlob { data : option string }.
Record Part : Type := mkPart { inlineData : option Blob }.
Record Content : Type := mkContent { parts : option (list Part) }.
Record GroundingMetadata : Type :=
  mkMetadata { groundingChunks : option (list GroundingChunk) }.
Record Candidate : Type := mkCandidate {
  content : option Content;
  groundingMetadata : option GroundingMetadata
}.
Record GenerateContentResponse : Type := mkResponse {
  text : option string;
  candidates : option (list Candidate)
}.

(** A settled promise. *)
Inductive Settled (A : Type) : Type :=
| Resolved (a : A)
| Rejected (message : string).
Arguments Resolved {A} a.
Arguments Rejected {A} message.

(** Optional chaining [o?.f], and [o?.[0]] on an array. *)
Definition chain {A B : Type} (o : option A) (f : A -> option B) : option B :=
  match o with
  | Some a => f a
  | None => None
  end.

Definition first {A : Type} (l : list A) : option A := hd_error l.

Notation "o ?> f" := (chain o f) (at level 50, left associativity).

(** [o || d] where [o] is an array or undefined: an array, even an empty
    one, is truthy. *)
Definition or_default {A : Type} (o : option A) (d : A) : A :=
  match o with
  | Some a => a
  | None => d
  end.

(** [!s] on a string or undefined. *)
Definition falsy (o : option string) : bool :=
  match o with
  | Some s => String.eqb s ""%string
  | None => true
  end.

(** Lines 9-27.  [api] is how [await ai.models.generateContent] settles. *)
Definition summarizeNewsWithGoogleSearch
    (api : Settled GenerateContentResponse)
  : Settled (option string * list GroundingChunk) :=
  match api with
  | Resolved response =>
      let summary := text response in
      let chunks :=
        or_default
          (candidates response ?> first ?> groundingMetadata ?> groundingChunks)
          [] in
      Resolved (summary, chunks)
  | Rejected _ => Rejected "Failed to summarize news."
  end.

(** Lines 29-54: the error thrown inside [try] for a missing payload is
    caught by the function's own [catch] and rethrown with its message. *)
Definition generateSpeech (api : Settled GenerateContentResponse)
  : Settled string :=
  let attempt : Settled string :=
    match api with
    | Resolved response =>
        let base64Audio :=
          candidates response ?> first ?> content ?> parts ?> first
            ?> inlineData ?> data in
        if falsy base64Audio then Rejected "No audio data received from API."
        else match base64Audio with
             | Some d => Resolved d
             | None => Rejected "No audio data received from API."
             end
    | Rejected e => Rejected e
    end in
  match attempt with
  | Resolved d => Resolved d
  | Rejected _ => Rejected "Failed to generate speech."
  end.

(** The response carries no citation records: no candidates, an empty
    candidate array, no grounding metadata on the first candidate, or
    metadata without chunks. *)
Definition citations_absent (r : GenerateContentResponse) : Prop :=
  match candidates r with
  | None | Some [] => True
  | Some (cand :: _) =>
      match groundingMetadata cand with
      | None => True
      | Some md => groundingChunks md = None
      end
  end.

End Service.

(* ===================================================================== *)
(** * The result card's audio handler ([src/App.tsx], lines 62-133) *)
(* ===================================================================== *)

Module Card.
Import Service.

(** [types.ts] *)
Record Result : Type := mkResult {
  id : string;
  source : string;
  summary : string;
  resultChunks : list GroundingChunk;
  timestamp : Z
}.

(** ** The Web Audio objects the handler touches *)

Inductive NodeStatus : Type := Unstarted | Running | Halted.

(** An [AudioBufferSourceNode]: the output device of one playback. *)
Record SourceNode : Type := mkNode {
  node_id : nat;
  node_status : NodeStatus;
  node_buffer : option Audio.AudioBuffer;
  node_connected : bool
}.

Inductive ContextState : Type := suspended | running.

(** What the browser decides when the handler asks: whether an
    [AudioContext] can be constructed, its state when it is new, and
    whether [resume()] resolves. *)
Record AudioEnv : Type := mkEnv {
  contextAvailable : bool;
  initialState : ContextState;
  resumeSucceeds : bool
}.

(** ** The card: React state, refs, and the world they point into *)

Record Card : Type := mkCard {
  isGeneratingAudio : bool;                 (* useState, line 70 *)
  isPlaying : bool;                         (* useState, line 71 *)
  audioError : option string;               (* useState, line 72 *)
  audioContextRef : option ContextState;    (* useRef, line 73 *)
  sourceNodeRef : option nat;               (* useRef, line 74 *)
  nodes : list SourceNode;   (* source nodes created and not yet ended *)
  next_node : nat;
  requests : list string;    (* handler calls suspended at line 94 *)
  console : list string
}.

Definition initial : Card :=
  mkCard false false None None None [] 0 [] [].

Inductive Phase : Type := Idle | Generating | Playing.

(** The phase as the button shows it (lines 163-164). *)
Definition phase (c : Card) : Phase :=
  if isGeneratingAudio c then Generating
  else if isPlaying c then Playing
  else Idle.

(** The button is [disabled={isGeneratingAudio}] (line 160). *)
Definition disabled (c : Card) : bool := isGeneratingAudio c.

(** ** State and exceptions *)

Definition exn : Type := string.

(** A computation on the card that returns or throws; what it did before
    throwing stays done. *)
Definition M (A : Type) : Type := Card -> Card * (exn + A).

Definition ret {A : Type} (a : A) : M A := fun c => (c, inr a).

Definition throw {A : Type} (e : exn) : M A := fun c => (c, inl e).

Definition bind {A B : Type} (m : M A) (k : A -> M B) : M B :=
  fun c =>
    match m c with
    | (c', inr a) => k a c'
    | (c', inl e) => (c', inl e)
    end.

Notation "x <- m ;; k" := (bind m (fun x => k))
  (at level 61, m at next level, right associativity).
Notation "m ;; k" := (bind m (fun _ => k))
  (at level 61, right associativity).

Definition gets {A : Type} (f : Card -> A) : M A := fun c => (c, inr (f c)).

Definition modify (f : Card -> Card) : M unit := fun c => (f c, inr tt).

(** [try { body } catch (error) { handler } finally { fin }] *)
Definition try_catch_finally (body : M unit) (handler : exn -> M unit)
    (fin : M unit) : M unit :=
  fun c =>
    let (c1, r1) := body c in
    let (c2, r2) :=
      match r1 with
      | inl e => handler e c1
      | inr a => (c1, inr a)
      end in
    match fin c2 with
    | (c3, inl e) => (c3, inl e)
    | (c3, inr _) => (c3, r2)
    end.

Definition returns {A : Type} (r : Card * (exn + A)) : Prop :=
  exists a, snd r = inr a.

(** ** State setters and refs *)

Definition with_isGeneratingAudio (b : bool) (c : Card) : Card :=
  mkCard b (isPlaying c) (audioError c) (audioContextRef c) (sourceNodeRef c)
    (nodes c) (next_node c) (requests c) (console c).

Definition with_isPlaying (b : bool) (c : Card) : Card :=
  mkCard (isGeneratingAudio c) b (audioError c) (audioContextRef c)
    (sourceNodeRef c) (nodes c) (next_node c) (requests c) (console c).

Definition with_audioError (e : option string) (c : Card) : Card :=
  mkCard (isGeneratingAudio c) (isPlaying c) e (audioContextRef c)
    (sourceNodeRef c) (nodes c) (next_node c) (requests c) (console c).

Definition with_audioContextRef (r : option ContextState) (c : Card) : Card :=
  mkCard (isGeneratingAudio c) (isPlaying c) (audioError c) r
    (sourceNodeRef c) (nodes c) (next_node c) (requests c) (console c).

Definition with_sourceNodeRef (r : option nat) (c : Card) : Card :=
  mkCard (isGeneratingAudio c) (isPlaying c) (audioError c)
    (audioContextRef c) r (nodes c) (next_node c) (requests c) (console c).

Definition with_nodes (l : list SourceNode) (c : Card) : Card :=
  mkCard (isGeneratingAudio c) (isPlaying c) (audioError c)
    (audioContextRef c) (sourceNodeRef c) l (next_node c) (requests c)
    (console c).

Definition with_next_node (n : nat) (c : Card) : Card :=
  mkCard (isGeneratingAudio c) (isPlaying c) (audioError c)
    (audioContextRef c) (sourceNodeRef c) (nodes c) n (requests c) (console c).

Definition with_requests (l : list string) (c : Card) : Card :=
  mkCard (isGeneratingAudio c) (isPlaying c) (audioError c)
    (audioContextRef c) (sourceNodeRef c) (nodes c) (next_node c) l
    (console c).

Definition with_console (l : list string) (c : Card) : Card :=
  mkCard (isGeneratingAudio c) (isPlaying c) (audioError c)
    (audioContextRef c) (sourceNodeRef c) (nodes c) (next_node c)
    (requests c) l.

Definition setIsGeneratingAudio (b : bool) : M unit :=
  modify (with_isGeneratingAudio b).
Definition setIsPlaying (b : bool) : M unit := modify (with_isPlaying b).
Definition setAudioError (e : option string) : M unit :=
  modify (with_audioError e).
Definition consoleError (e : exn) : M unit :=
  modify (fun c => with_console (console c ++ [e]) c).

(** ** Source nodes *)

Definition find_node (n : nat) (l : list SourceNode) : option SourceNode :=
  find (fun nd => Nat.eqb (node_id nd) n) l.

Definition update_node (n : nat) (f : SourceNode -> SourceNode)
    (l : list SourceNode) : list SourceNode :=
  map (fun nd => if Nat.eqb (node_id nd) n then f nd else nd) l.

Definition started (nd : SourceNode) : bool :=
  match node_status nd with
  | Unstarted => false
  | Running | Halted => true
  end.

(** [audioContext.createBufferSource()] *)
Definition createBufferSource : M nat :=
  fun c =>
    let n := next_node c in
    (with_next_node (S n)
       (with_nodes (nodes c ++ [mkNode n Unstarted None false]) c),
     inr n).

(** [source.buffer = audioBuffer] *)
Definition setBuffer (n : nat) (b : Audio.AudioBuffer) : M unit :=
  modify (fun c =>
    with_nodes
      (update_node n
         (fun nd => mkNode (node_id nd) (node_status nd) (Some b)
                      (node_connected nd))
         (nodes c)) c).

(** [source.connect(audioContext.destination)] *)
Definition connect (n : nat) : M unit :=
  modify (fun c =>
    with_nodes
      (update_node n
         (fun nd => mkNode (node_id nd) (node_status nd) (node_buffer nd) true)
         (nodes c)) c).

Definition set_status (s : NodeStatus) (nd : SourceNode) : SourceNode :=
  mkNode (node_id nd) s (node_buffer nd) (node_connected nd).

(** [source.start()]: a node starts once. *)
Definition start (n : nat) : M unit :=
  fun c =>
    match find_node n (nodes c) with
    | Some nd =>
        match node_status nd with
        | Unstarted =>
            (with_nodes (update_node n (set_status Running) (nodes c)) c,
             inr tt)
        | Running | Halted => (c, inl "InvalidStateError"%string)
        end
    | None => (c, inl "InvalidStateError"%string)
    end.

(** [source.stop()]: halts a started node, whose end notification then
    follows; throws on a node that was never started; does nothing on a
    node that has ended. *)
Definition stop (n : nat) : M unit :=
  fun c =>
    match find_node n (nodes c) with
    | Some nd =>
        match node_status nd with
        | Unstarted => (c, inl "InvalidStateError"%string)
        | Running | Halted =>
            (with_nodes (update_node n (set_status Halted) (nodes c)) c,
             inr tt)
        end
    | None => (c, inr tt)
    end.

(** ** The handler *)

Definition audioErrorMessage : string := "Sesli brifing oluşturulamadı.".

Section ResultCard.

Variable result : Result.

(** Line 85: [sourceNodeRef.current?.stop()]. *)
Definition stopCurrentSource : M unit :=
  ref <- gets sourceNodeRef ;;
  match ref with
  | Some n => stop n
  | None => ret tt
  end.

(** Lines 83-94, up to the [await]: the call is then suspended until
    [generateSpeech] settles. *)
Definition handleAudioAction : M unit :=
  playing <- gets isPlaying ;;
  if playing then stopCurrentSource
  else if String.eqb (summary result) "" then ret tt
  else
    setIsGeneratingAudio true ;;
    setAudioError None ;;
    modify (fun c => with_requests (requests c ++ [summary result]) c).

(** Lines 96-99. *)
Definition ensureAudioContext (env : AudioEnv) : M unit :=
  ref <- gets audioContextRef ;;
  match ref with
  | Some _ => ret tt
  | None =>
      if contextAvailable env
      then modify (with_audioContextRef (Some (initialState env)))
      else throw "NotSupportedError"%string
  end.

(** Lines 101-103. *)
Definition resumeIfSuspended (env : AudioEnv) : M unit :=
  ref <- gets audioContextRef ;;
  match ref with
  | Some suspended =>
      if resumeSucceeds env
      then modify (with_audioContextRef (Some running))
      else throw "InvalidStateError"%string
  | Some running | None => ret tt
  end.

Definition await {A : Type} (p : Settled A) : M A :=
  match p with
  | Resolved a => ret a
  | Rejected e => throw e
  end.

(** Line 105, [decode(base64Audio)]. *)
Definition decodeBytes (base64Audio : string) : M (list byte) :=
  match Audio.decode base64Audio with
  | Some bytes => ret bytes
  | None => throw "InvalidCharacterError"%string
  end.

(** Lines 94-132, from the moment [generateSpeech] has settled.  While the
    call is suspended at the later [await]s (lines 102 and 106) the button
    is disabled and no source node exists, so the rest of the body runs as
    one step: the step taken once [resume()] and [decodeAudioData] have
    settled too.  [Async] below follows the call await by await, a promise
    that stays pending included. *)
Definition resumeAudioAction (speech : Settled string) (env : AudioEnv)
  : M unit :=
  try_catch_finally
    (base64Audio <- await speech ;;
     ensureAudioContext env ;;
     resumeIfSuspended env ;;
     audioBytes <- decodeBytes base64Audio ;;
     let audioBuffer := Audio.pcmToAudioBuffer audioBytes 24000 1 in
     source <- createBufferSource ;;
     setBuffer source audioBuffer ;;
     connect source ;;
     modify (with_sourceNodeRef (Some source)) ;;
     start source ;;
     setIsPlaying true)
    (fun error =>
       consoleError error ;;
       setAudioError (Some audioErrorMessage) ;;
       setIsPlaying false)
    (setIsGeneratingAudio false).

(** Whether the audio context of the card is running or can be made to:
    lines 96-103 then pass without throwing. *)
Definition audio_ready (env : AudioEnv) (c : Card) : bool :=
  match audioContextRef c with
  | Some running => true
  | Some suspended => resumeSucceeds env
  | None =>
      contextAvailable env
      && match initialState env with
         | running => true
         | suspended => resumeSucceeds env
         end
  end.

(** Lines 118-121, run when node [n] reports its end: the node is gone
    from the audio graph and the callback clears the state and the ref. *)
Definition onended (n : nat) : M unit :=
  modify (fun c =>
    with_nodes (filter (fun nd => negb (Nat.eqb (node_id nd) n)) (nodes c)) c) ;;
  setIsPlaying false ;;
  modify (with_sourceNodeRef None).

(** ** Events *)

Inductive Event : Type :=
| Click
| SpeechSettled (api : Settled GenerateContentResponse) (env : AudioEnv)
| Ended (n : nat).

(** One event; [None] when it cannot occur in [c] (no suspended call to
    resume, no started node to end).  A click on the disabled button is
    ignored by the browser. *)
Definition step (e : Event) (c : Card) : option Card :=
  match e with
  | Click =>
      if disabled c then Some c else Some (fst (handleAudioAction c))
  | SpeechSettled api env =>
      match requests c with
      | [] => None
      | _ :: rest =>
          Some (fst (resumeAudioAction (generateSpeech api) env
                       (with_requests rest c)))
      end
  | Ended n =>
      match find_node n (nodes c) with
      | Some nd => if started nd then Some (fst (onended n c)) else None
      | None => None
      end
  end.

Fixpoint run (es : list Event) (c : Card) : option Card :=
  match es with
  | [] => Some c
  | e :: es' =>
      match step e c with
      | Some c' => run es' c'
      | None => None
      end
  end.

Inductive reachable : Card -> Prop :=
| reach_initial : reachable initial
| reach_step (e : Event) (c c' : Card) :
    reachable c -> step e c = Some c' -> reachable c'.

(** The phase changes the handler makes. *)
Definition allowed (p q : Phase) : bool :=
  match p, q with
  | Idle, Idle | Idle, Generating => true
  | Generating, Generating | Generating, Playing | Generating, Idle => true
  | Playing, Playing | Playing, Idle => true
  | _, _ => false
  end.

(** What holds of every card the events can produce. *)
Definition invariant (c : Card) : Prop :=
  (isGeneratingAudio c = true ->
     isPlaying c = false /\ exists t, requests c = [t])
  /\ (isGeneratingAudio c = false -> requests c = [])
  /\ (isPlaying c = false -> nodes c = [] /\ sourceNodeRef c = None)
  /\ (isPlaying c = true ->
        exists nd, nodes c = [nd] /\ started nd = true
                   /\ sourceNodeRef c = Some (node_id nd)).

End ResultCard.

End Card.

(* ===================================================================== *)
(** * The handler, await by await ([src/App.tsx], lines 93-132) *)
(* ===================================================================== *)

Module Async.
Import Service Card.

(** Where a call of [handleAudioAction] can wait after [generateSpeech]
    has settled: at [await audioContext.resume()] (line 102), with the
    payload in hand, or at [await decodeAudioData(...)] (line 106), with
    the decoded bytes. *)
Inductive Suspension : Type :=
| AtResume (base64Audio : string)
| AtDecode (audioBytes : list byte).

(** The card and what its one handler call waits for, if it is past
    line 94; a call waiting at line 94 is in [requests]. *)
Record Session : Type := mkSession {
  card : Card;
  waiting : option Suspension
}.

Definition fresh : Session := mkSession initial None.

(** Lines 113-124. *)
Definition playBuffer (audioBuffer : Audio.AudioBuffer) : M unit :=
  source <- createBufferSource ;;
  setBuffer source audioBuffer ;;
  connect source ;;
  modify (with_sourceNodeRef (Some source)) ;;
  start source ;;
  setIsPlaying true.

(** Lines 126-129 and 130-132. *)
Definition catchBlock (error : exn) : M unit :=
  consoleError error ;;
  setAudioError (Some audioErrorMessage) ;;
  setIsPlaying false.

Definition finallyBlock : M unit := setIsGeneratingAudio false.

(** A stretch of the [try] body between two [await]s.  It reaches the next
    [await] and the call is suspended there, with [catch] and [finally]
    still to come; or it reaches the end of the body and [finally] runs;
    or it throws and [catch] and [finally] run. *)
Definition stretch (body : M (option Suspension)) (c : Card) : Session :=
  match body c with
  | (c1, inr (Some w)) => mkSession c1 (Some w)
  | (c1, inr None) => mkSession (fst (finallyBlock c1)) None
  | (c1, inl e) => mkSession (fst (finallyBlock (fst (catchBlock e c1)))) None
  end.

(** Lines 105-106, up to the [await]. *)
Definition toDecode (base64Audio : string) : M (option Suspension) :=
  audioBytes <- decodeBytes base64Audio ;;
  ret (Some (AtDecode audioBytes)).

(** Lines 94-102, from the moment [generateSpeech] has settled. *)
Definition afterSpeech (speech : Settled string) (env : AudioEnv)
  : M (option Suspension) :=
  base64Audio <- await speech ;;
  ensureAudioContext env ;;
  ref <- gets audioContextRef ;;
  match ref with
  | Some suspended => ret (Some (AtResume base64Audio))
  | Some running | None => toDecode base64Audio
  end.

(** Lines 102-106, from the moment [resume()] has settled. *)
Definition afterResume (ok : bool) (base64Audio : string)
  : M (option Suspension) :=
  (if ok then modify (with_audioContextRef (Some running))
   else throw "InvalidStateError"%string) ;;
  toDecode base64Audio.

(** Lines 106-124, from the moment [decodeAudioData] has settled: with
    the buffer, or rejected. *)
Definition afterDecode (ok : bool) (audioBytes : list byte)
  : M (option Suspension) :=
  (if ok then playBuffer (Audio.pcmToAudioBuffer audioBytes 24000 1)
   else throw "EncodingError"%string) ;;
  ret None.

Section ResultCard.

Variable result : Result.

(** What can happen to the card; a promise that stays pending gives no
    signal. *)
Inductive Signal : Type :=
| Press
| Speech (api : Settled GenerateContentResponse) (env : AudioEnv)
| Resumed (ok : bool)
| Decoded (ok : bool)
| NodeEnded (n : nat).

Definition advance (sig : Signal) (s : Session) : option Session :=
  let c := card s in
  match sig with
  | Press =>
      if disabled c then Some s
      else Some (mkSession (fst (handleAudioAction result c)) (waiting s))
  | Speech api env =>
      match requests c with
      | [] => None
      | _ :: rest =>
          Some (stretch (afterSpeech (generateSpeech api) env)
                  (with_requests rest c))
      end
  | Resumed ok =>
      match waiting s with
      | Some (AtResume base64Audio) =>
          Some (stretch (afterResume ok base64Audio) c)
      | Some (AtDecode _) | None => None
      end
  | Decoded ok =>
      match waiting s with
      | Some (AtDecode audioBytes) =>
          Some (stretch (afterDecode ok audioBytes) c)
      | Some (AtResume _) | None => None
      end
  | NodeEnded n =>
      match find_node n (nodes c) with
      | Some nd =>
          if started nd then Some (mkSession (fst (onended n c)) (waiting s))
          else None
      | None => None
      end
  end.

Fixpoint advanceAll (sigs : list Signal) (s : Session) : option Session :=
  match sigs with
  | [] => Some s
  | sig :: rest =>
      match advance sig s with
      | Some s' => advanceAll rest s'
      | None => None
      end
  end.

Inductive attainable : Session -> Prop :=
| attain_fresh : attainable fresh
| attain_advance (sig : Signal) (s s' : Session) :
    attainable s -> advance sig s = Some s' -> attainable s'.

(** How many promises the handler call still has to see settled, at
    most. *)
Definition awaitsLeft (s : Session) : nat :=
  match requests (card s), waiting s with
  | _ :: _, _ => 3
  | [], Some (AtResume _) => 2
  | [], Some (AtDecode _) => 1
  | [], None => 0
  end.

(** The signal that settles the promise the call waits for. *)
Definition settles (sig : Signal) (s : Session) : Prop :=
  match sig with
  | Speech _ _ => requests (card s) <> []
  | Resumed _ => exists b, waiting s = Some (AtResume b)
  | Decoded _ => exists bytes, waiting s = Some (AtDecode bytes)
  | Press | NodeEnded _ => False
  end.

(** The handler call is over: [finally] has run. *)
Definition finished (s : Session) : Prop :=
  isGeneratingAudio (card s) = false
  /\ requests (card s) = [] /\ waiting s = None
  /\ ((phase (card s) = Playing /\ audioError (card s) = None)
      \/ (phase (card s) = Idle
          /\ audioError (card s) = Some audioErrorMessage)).

Definition invariant (s : Session) : Prop :=
  (isGeneratingAudio (card s) = true ->
     isPlaying (card s) = false /\ audioError (card s) = None
     /\ (((exists t, requests (card s) = [t]) /\ waiting s = None)
         \/ (requests (card s) = [] /\ exists w, waiting s = Some w)))
  /\ (isGeneratingAudio (card s) = false ->
        requests (card s) = [] /\ waiting s = None)
  /\ (isPlaying (card s) = false ->
        nodes (card s) = [] /\ sourceNodeRef (card s) = None)
  /\ (isPlaying (card s) = true ->
        audioError (card s) = None
        /\ exists nd, nodes (card s) = [nd] /\ started nd = true
                      /\ sourceNodeRef (card s) = Some (node_id nd)).

(** Every promise of the call settles, [resume()] as [env] says and
    [decodeAudioData] with the buffer: the card that is left. *)
Definition settleAll (speech : Settled string) (env : AudioEnv) (c : Card)
  : Card :=
  let s1 := stretch (afterSpeech speech env) c in
  match waiting s1 with
  | None => card s1
  | Some (AtDecode audioBytes) =>
      card (stretch (afterDecode true audioBytes) (card s1))
  | Some (AtResume base64Audio) =>
      let s2 := stretch (afterResume (resumeSucceeds env) base64Audio)
                  (card s1) in
      match waiting s2 with
      | Some (AtDecode audioBytes) =>
          card (stretch (afterDecode true audioBytes) (card s2))
      | Some (AtResume _) | None => card s2
      end
  end.

End ResultCard.

End Async.

(* ===================================================================== *)
(** * Favorites ([src/App.tsx], lines 297-322) *)
(* ===================================================================== *)

Module Favorites.

(** [types.ts] *)
Record FavoriteItem : Type := mkFavorite {
  id : string;
  text : string;
  source : string;
  timestamp : Z
}.

(** Lines 297-307; [now] is [new Date().toISOString()]. *)
Definition handleAddFavorite (now : string) (t s : string) (ts : Z)
    (prev : list FavoriteItem) : list FavoriteItem :=
  let exists_ := existsb (fun item => String.eqb (text item) t) prev in
  if exists_ then filter (fun item => negb (String.eqb (text item) t)) prev
  else mkFavorite now t s ts :: prev.

(** Lines 309-311. *)
Definition handleRemoveFavorite (i : string) (prev : list FavoriteItem)
  : list FavoriteItem :=
  filter (fun item => negb (String.eqb (id item) i)) prev.

(** Line 317-319. *)
Definition isFavoritedCheck (favorites : list FavoriteItem) (t : string)
  : bool :=
  existsb (fun fav => String.eqb (text fav) t) favorites.

(** Line 322: [favorites.sort((a,b) => b.timestamp - a.timestamp)] sorts
    the state array in place on every render, newest first; the sort is
    stable. *)
Fixpoint insert_by_timestamp (x : FavoriteItem) (l : list FavoriteItem)
  : list FavoriteItem :=
  match l with
  | [] => [x]
  | y :: ys =>
      if (timestamp y <=? timestamp x)%Z then x :: y :: ys
      else y :: insert_by_timestamp x ys
  end.

Definition sortFavorites (l : list FavoriteItem) : list FavoriteItem :=
  fold_right insert_by_timestamp [] l.

Inductive Op : Type :=
| Add (now t s : string) (ts : Z)
| Remove (i : string)
| Render.

Definition apply (o : Op) (store : list FavoriteItem) : list FavoriteItem :=
  match o with
  | Add now t s ts => handleAddFavorite now t s ts store
  | Remove i => handleRemoveFavorite i store
  | Render => sortFavorites store
  end.

Definition applyAll (ops : list Op) (store : list FavoriteItem)
  : list FavoriteItem :=
  fold_left (fun st o => apply o st) ops store.

Definition texts (store : list FavoriteItem) : list string := map text store.

Definition count_text (t : string) (store : list FavoriteItem) : nat :=
  List.length (filter (fun item => String.eqb (text item) t) store).

End Favorites.

(* ===================================================================== *)
(** * The news items of a card ([src/App.tsx], lines 77-80) *)
(* ===================================================================== *)

Module NewsItems.

(** A JavaScript string as its sequence of UTF-16 code units. *)
Definition JSString : Type := list N.

(** The code units that [trim()] strips and [\s] matches: WhiteSpace and
    LineTerminator of ECMAScript. *)
Definition is_space (u : N) : bool :=
  ((u =? 9) || (u =? 10) || (u =? 11) || (u =? 12) || (u =? 13)
   || (u =? 32) || (u =? 160) || (u =? 5760)
   || ((8192 <=? u) && (u <=? 8202))
   || (u =? 8232) || (u =? 8233) || (u =? 8239) || (u =? 8287)
   || (u =? 12288) || (u =? 65279))%N.

(** [\d] *)
Definition is_digit (u : N) : bool := ((48 <=? u) && (u <=? 57))%N.

Fixpoint trimStart (s : JSString) : JSString :=
  match s with
  | [] => []
  | u :: r => if is_space u then trimStart r else s
  end.

Definition trimEnd (s : JSString) : JSString := rev (trimStart (rev s)).

(** [line.trim()] *)
Definition trim (s : JSString) : JSString := trimEnd (trimStart s).

(** [summary.split('\n')]: the empty string has one, empty, line. *)
Fixpoint split_lines (s : JSString) : list JSString :=
  match s with
  | [] => [[]]
  | u :: r =>
      if (u =? 10)%N then [] :: split_lines r
      else match split_lines r with
           | l :: ls => (u :: l) :: ls
           | [] => [[u]]
           end
  end.

Fixpoint skip_digits (s : JSString) : JSString :=
  match s with
  | [] => []
  | u :: r => if is_digit u then skip_digits r else s
  end.

(** [.replace(/^[-*]\s*|^\d+\.\s*/, '')]: without the [g] and [m] flags
    the pattern can match once, at the start: a dash or a star, or digits
    and a dot, and the white space that follows. *)
Definition strip_marker (t : JSString) : JSString :=
  match t with
  | [] => []
  | u :: r =>
      if ((u =? 45) || (u =? 42))%N then trimStart r
      else if is_digit u then
        match skip_digits r with
        | d :: r' => if (d =? 46)%N then trimStart r' else t
        | [] => t
        end
      else t
  end.

Definition nonempty (s : JSString) : bool :=
  match s with
  | [] => false
  | _ :: _ => true
  end.

(** Lines 77-80. *)
Definition newsItems (summary : JSString) : list JSString :=
  filter nonempty
    (map (fun line => strip_marker (trim line)) (split_lines summary)).

Definition first_unit (s : JSString) : option N := hd_error s.
Definition last_unit (s : JSString) : option N := hd_error (rev s).

(** An item as the card shows it: not empty, on one line, and with no
    white space at either end. *)
Definition tidy (s : JSString) : Prop :=
  s <> []
  /\ ~ In 10%N s
  /\ (forall u, first_unit s = Some u -> is_space u = false)
  /\ (forall u, last_unit s = Some u -> is_space u = false).

End NewsItems.

(* ===================================================================== *)
(** * The application state and its handlers ([src/App.tsx], 188-322) *)
(* ===================================================================== *)

Module App.
Local Open Scope string_scope.

(** A result as [handleGetSummary] builds it: its [summary] is the
    [response.text] that the service passes on, which may be undefined. *)
Record Result : Type := mkResult {
  id : string;
  source : string;
  summary : option string;
  groundingChunks : list Service.GroundingChunk;
  timestamp : Z
}.

Inductive ActiveView : Type := feed | discover | favoritesView.

(** Lines 188-190. *)
Definition countries : list string :=
  ["Dünya"; "Türkiye"; "ABD"; "Almanya"; "İngiltere"; "Fransa"; "Japonya";
   "Rusya"; "Çin"].
Definition categories : list string :=
  ["Gündem"; "Son Dakika"; "Spor"; "Teknoloji"; "Bilim"; "Sanat"; "Sağlık";
   "Eğlence"].
Definition discoverCategories : list string :=
  ["Yorum & Analiz"; "Edebiyat & Sanat"; "Felsefe"; "Popüler Bilim";
   "Siyaset"; "Din"; "Sinema"; "Toplum"; "Psikoloji"; "Hukuk"].

(** [array.sort((a,b) => b.timestamp - a.timestamp)]: newest first; the
    sort of the language is stable, which fixes the result. *)
Section Sort.
Context {A : Type} (key : A -> Z).

Fixpoint insert_desc (x : A) (l : list A) : list A :=
  match l with
  | [] => [x]
  | y :: ys =>
      if (key y <=? key x)%Z then x :: y :: ys else y :: insert_desc x ys
  end.

Definition sort_desc (l : list A) : list A := fold_right insert_desc [] l.

End Sort.

(** A handler call suspended at its [await], with the selection its
    closure captured. *)
Inductive Call : Type :=
| SummaryCall (country category prompt : string)
| DiscoveryCall (category prompt : string).

Record State : Type := mkState {
  history : list Result;                    (* line 195 *)
  favorites : list Favorites.FavoriteItem;  (* line 196 *)
  selectedCountry : option string;          (* line 197 *)
  selectedCategory : option string;         (* line 198 *)
  isLoading : bool;                         (* line 199 *)
  error : option string;                    (* line 200 *)
  activeView : ActiveView;                  (* line 203 *)
  calls : list Call;
  console : list string
}.

Definition initial : State :=
  mkState [] [] None None false None feed [] [].

Definition with_history (h : list Result) (s : State) : State :=
  mkState h (favorites s) (selectedCountry s) (selectedCategory s)
    (isLoading s) (error s) (activeView s) (calls s) (console s).

Definition with_favorites (f : list Favorites.FavoriteItem) (s : State)
  : State :=
  mkState (history s) f (selectedCountry s) (selectedCategory s)
    (isLoading s) (error s) (activeView s) (calls s) (console s).

Definition with_selectedCountry (c : option string) (s : State) : State :=
  mkState (history s) (favorites s) c (selectedCategory s)
    (isLoading s) (error s) (activeView s) (calls s) (console s).

Definition with_selectedCategory (c : option string) (s : State) : State :=
  mkState (history s) (favorites s) (selectedCountry s) c
    (isLoading s) (error s) (activeView s) (calls s) (console s).

Definition with_isLoading (b : bool) (s : State) : State :=
  mkState (history s) (favorites s) (selectedCountry s) (selectedCategory s)
    b (error s) (activeView s) (calls s) (console s).

Definition with_error (e : option string) (s : State) : State :=
  mkState (history s) (favorites s) (selectedCountry s) (selectedCategory s)
    (isLoading s) e (activeView s) (calls s) (console s).

Definition with_activeView (v : ActiveView) (s : State) : State :=
  mkState (history s) (favorites s) (selectedCountry s) (selectedCategory s)
    (isLoading s) (error s) v (calls s) (console s).

Definition with_calls (l : list Call) (s : State) : State :=
  mkState (history s) (favorites s) (selectedCountry s) (selectedCategory s)
    (isLoading s) (error s) (activeView s) l (console s).

Definition with_console (l : list string) (s : State) : State :=
  mkState (history s) (favorites s) (selectedCountry s) (selectedCategory s)
    (isLoading s) (error s) (activeView s) (calls s) l.

Definition selectionError : string := "Lütfen bir ülke ve kategori seçin.".
Definition summaryError : string :=
  "Haber özeti alınırken bir hata oluştu. Lütfen tekrar deneyin.".
Definition discoveryError : string :=
  "İçerik getirilirken bir hata oluştu. Lütfen tekrar deneyin.".

Definition quote : string := String (ascii_of_nat 34) EmptyString.

(** Line 256. *)
Definition summaryPrompt (country category : string) : string :=
  "Lütfen "
  ++ (if String.eqb country "Dünya" then "dünyadaki"
      else country ++ " ülkesindeki")
  ++ " en güncel " ++ category
  ++ " haberlerini özetle. Özetini oluştururken, farklı bakış açıları sunan birden çok çeşitli ve güvenilir web kaynağını kullandığından emin ol. Sonucu Türkçe olarak maddeler halinde sun.".

(** Line 278. *)
Definition discoveryPrompt (category : string) : string :=
  quote ++ category ++ quote
  ++ " alanında, dünya çapında saygın düşünce liderlerinden, eleştirmenlerden veya sanatçılardan ufuk açıcı, güncel bir deneme, analiz veya eleştiri yazısı bul ve bunu Türkçe olarak, ana fikirlerini ve temel argümanlarını vurgulayarak maddeler halinde özetle. Özetini oluştururken, farklı bakış açıları sunan çeşitli ve güvenilir web kaynaklarını kullandığından emin ol.".

(** Lines 248-257, up to the [await]. *)
Definition handleGetSummary (s : State) : State :=
  if Service.falsy (selectedCountry s) || Service.falsy (selectedCategory s)
  then with_error (Some selectionError) s
  else
    match selectedCountry s, selectedCategory s with
    | Some country, Some category =>
        with_calls
          (calls s ++ [SummaryCall country category
                         (summaryPrompt country category)])
          (with_error None (with_isLoading true s))
    | _, _ => s
    end.

(** Lines 274-279, up to the [await]. *)
Definition handleGetDiscovery (category : string) (s : State) : State :=
  with_calls (calls s ++ [DiscoveryCall category (discoveryPrompt category)])
    (with_error None (with_isLoading true s)).

(** Lines 257-271 and 279-294: the suspended call resumes when the
    service settles; [iso] and [now] are [new Date().toISOString()] and
    [Date.now()] at that moment. *)
Definition resumeCall (call : Call)
    (api : Service.Settled Service.GenerateContentResponse)
    (iso : string) (now : Z) (s : State) : State :=
  let settled := Service.summarizeNewsWithGoogleSearch api in
  let s' :=
    match call, settled with
    | SummaryCall country category _, Service.Resolved (text, chunks) =>
        with_history
          (mkResult iso (country ++ " - " ++ category) text chunks now
             :: history s) s
    | DiscoveryCall category _, Service.Resolved (text, chunks) =>
        with_activeView feed
          (with_history
             (mkResult iso ("Keşfet - " ++ category) text chunks now
                :: history s) s)
    | SummaryCall _ _ _, Service.Rejected e =>
        with_error (Some summaryError) (with_console (console s ++ [e]) s)
    | DiscoveryCall _ _, Service.Rejected e =>
        with_error (Some discoveryError) (with_console (console s ++ [e]) s)
    end in
  with_isLoading false s'.

(** Lines 297-315. *)
Definition handleAddFavorite (iso t src : string) (ts : Z) (s : State)
  : State :=
  with_favorites (Favorites.handleAddFavorite iso t src ts (favorites s)) s.

Definition handleRemoveFavorite (i : string) (s : State) : State :=
  with_favorites (Favorites.handleRemoveFavorite i (favorites s)) s.

Definition handleDeleteResult (i : string) (s : State) : State :=
  with_history
    (filter (fun item => negb (String.eqb (id item) i)) (history s)) s.

(** Lines 321-322: every render sorts both state arrays in place. *)
Definition render (s : State) : State :=
  with_favorites (Favorites.sortFavorites (favorites s))
    (with_history (sort_desc timestamp (history s)) s).

(** What the user and the service can do.  A button that is not there, or
    is disabled, gives no event. *)
Inductive Event : Type :=
| SelectCountry (c : string)
| SelectCategory (c : string)
| SetActiveView (v : ActiveView)
| ClickGetSummary
| ClickDiscover (category : string)
| Settled (api : Service.Settled Service.GenerateContentResponse)
    (iso : string) (now : Z)
| AddFavorite (iso t src : string) (ts : Z)
| RemoveFavorite (i : string)
| DeleteResult (i : string)
| Render.

Definition member (x : string) (l : list string) : bool :=
  existsb (String.eqb x) l.

(** [disabled={isLoading || !selectedCountry || !selectedCategory}],
    line 406. *)
Definition summaryDisabled (s : State) : bool :=
  isLoading s || Service.falsy (selectedCountry s)
  || Service.falsy (selectedCategory s).

Definition step (e : Event) (s : State) : option State :=
  match e with
  | SelectCountry c =>
      if member c countries then Some (with_selectedCountry (Some c) s)
      else None
  | SelectCategory c =>
      if member c categories then Some (with_selectedCategory (Some c) s)
      else None
  | SetActiveView v => Some (with_activeView v s)
  | ClickGetSummary =>
      if summaryDisabled s then None else Some (handleGetSummary s)
  | ClickDiscover category =>
      if member category discoverCategories && negb (isLoading s)
      then Some (handleGetDiscovery category s)
      else None
  | Settled api iso now =>
      match calls s with
      | [] => None
      | call :: rest => Some (resumeCall call api iso now (with_calls rest s))
      end
  | AddFavorite iso t src ts => Some (handleAddFavorite iso t src ts s)
  | RemoveFavorite i => Some (handleRemoveFavorite i s)
  | DeleteResult i => Some (handleDeleteResult i s)
  | Render => Some (render s)
  end.

Fixpoint run (es : list Event) (s : State) : option State :=
  match es with
  | [] => Some s
  | e :: es' =>
      match step e s with
      | Some s' => run es' s'
      | None => None
      end
  end.

Inductive reachable : State -> Prop :=
| reach_initial : reachable initial
| reach_step (e : Event) (s s' : State) :
    reachable s -> step e s = Some s' -> reachable s'.

Definition sources (s : State) : list string := map source (history s).

(** The labels a result can carry. *)
Definition summaryLabel (country category : string) : string :=
  country ++ " - " ++ category.
Definition discoveryLabel (category : string) : string :=
  "Keşfet - " ++ category.

Definition listed_label (l : string) : Prop :=
  (exists c k, In c countries /\ In k categories /\ l = summaryLabel c k)
  \/ (exists d, In d discoverCategories /\ l = discoveryLabel d).

Definition listed_call (call : Call) : Prop :=
  match call with
  | SummaryCall c k p =>
      In c countries /\ In k categories /\ p = summaryPrompt c k
  | DiscoveryCall d p => In d discoverCategories /\ p = discoveryPrompt d
  end.

Definition label_of (call : Call) : string :=
  match call with
  | SummaryCall c k _ => summaryLabel c k
  | DiscoveryCall d _ => discoveryLabel d
  end.

Definition failure_of (call : Call) : string :=
  match call with
  | SummaryCall _ _ _ => summaryError
  | DiscoveryCall _ _ => discoveryError
  end.

(** Newest first. *)
Definition newest_first {A : Type} (key : A -> Z) (l : list A) : Prop :=
  StronglySorted (fun a b => (key b <= key a)%Z) l.

(** The entries of one timestamp, in their order. *)
Definition same_time {A : Type} (key : A -> Z) (t : Z) (l : list A)
  : list A :=
  filter (fun a => (key a =? t)%Z) l.

(** What holds of every state the events can produce. *)
Definition invariant (s : State) : Prop :=
  (isLoading s = true -> error s = None /\ exists call, calls s = [call])
  /\ (isLoading s = false -> calls s = [])
  /\ (forall c, selectedCountry s = Some c -> In c countries)
  /\ (forall k, selectedCategory s = Some k -> In k categories)
  /\ Forall listed_call (calls s)
  /\ Forall listed_label (sources s).

End App.

(* ===================================================================== *)
(** * Settings in local storage ([src/App.tsx], lines 205-224) *)
(* ===================================================================== *)

Module Settings.
Local Open Scope string_scope.

(** [localStorage]: a value, or [null], for every key. *)
Definition Storage : Type := string -> option string.

Definition getItem (k : string) (st : Storage) : option string := st k.

Definition setItem (k v : string) (st : Storage) : Storage :=
  fun k' => if String.eqb k' k then Some v else st k'.

Definition emptyStorage : Storage := fun _ => None.

Record Prefs : Type := mkPrefs {
  backgroundTheme : string;   (* useState, line 201 *)
  fontSize : string           (* useState, line 202 *)
}.

(** [a || b] on a string or null. *)
Definition or_else (o : option string) (d : string) : string :=
  if Service.falsy o then d
  else match o with
       | Some v => v
       | None => d
       end.

(** Lines 206-218: the effect that loads the settings. *)
Definition loadSettings (prefersDark : bool) (st : Storage)
  : Prefs * Storage :=
  let savedTheme := getItem "backgroundTheme" st in
  let savedFontSize := getItem "fontSize" st in
  let theme := or_else savedTheme (if prefersDark then "dark" else "light") in
  let '(savedFontSize', st') :=
    match savedFontSize with
    | Some f =>
        if String.eqb f "small"
        then (Some "medium", setItem "fontSize" "medium" st)
        else (savedFontSize, st)
    | None => (savedFontSize, st)
    end in
  (mkPrefs theme (or_else savedFontSize' "medium"), st').

(** Lines 221-224: the effect that saves them. *)
Definition saveSettings (p : Prefs) (st : Storage) : Storage :=
  setItem "fontSize" (fontSize p)
    (setItem "backgroundTheme" (backgroundTheme p) st).

End Settings.

(* ===================================================================== *)
(** * Concrete inputs *)
(* ===================================================================== *)

Module Scenario.
Import Service Card.
Local Open Scope string_scope.

(** A result card with a one-line briefing, and one without text. *)
Definition briefing : Result :=
  mkResult "2024-05-01T10:00:00.000Z" "Dünya - Gündem" "- Haber" [] 1714557600000.

Definition silent : Result :=
  mkResult "2024-05-01T10:05:00.000Z" "Dünya - Spor" "" [] 1714557900000.

(** A TTS response carrying [payload] as its inline audio data. *)
Definition speech (payload : string) : Settled GenerateContentResponse :=
  Resolved
    (mkResponse None
       (Some [mkCandidate
                (Some (mkContent (Some [mkPart (Some (mkBlob (Some payload)))])))
                None])).

(** A browser that hands out a suspended context and resumes it. *)
Definition browser : AudioEnv := mkEnv true suspended true.

(** The card after one click and the arrival of two samples of audio. *)
Definition playing : Card :=
  mkCard false true None (Some running) (Some 0%nat)
    [mkNode 0 Running
       (Some (Audio.pcmToAudioBuffer [x00; x00; xff; x7f] 24000 1)) true]
    1 [] [].

(** A summarization response without candidates. *)
Definition bare_summary : GenerateContentResponse :=
  mkResponse (Some "- Haber") None.

(** The page with a country and a category chosen, and the same page
    while its summary is being fetched. *)
Definition chosen : App.State :=
  App.mkState [] [] (Some "Dünya") (Some "Spor") false None App.feed [] [].

Definition loading : App.State :=
  App.mkState [] [] (Some "Dünya") (Some "Spor") true None App.feed
    [App.SummaryCall "Dünya" "Spor" (App.summaryPrompt "Dünya" "Spor")] [].

End Scenario.

(* ===================================================================== *)
(** * Properties of the PCM decoder *)
(* ===================================================================== *)

Section DecoderFacts.
Import Audio.

Example base64_scenario :
  decode "AAD/fw==" = Some [x00; x00; xff; x7f].
Proof. vm_compute. reflexivity. Qed.

Example base64_rejects_bad_character : decode "AA*/fw==" = None.
Proof. vm_compute. reflexivity. Qed.

Example base64_rejects_bad_padding : decode "AAD/fw=" = None.
Proof. vm_compute. reflexivity. Qed.

(** Samples come in pairs of bytes: the statement is proved for a list and
    for the list with one more byte in front at once. *)
Lemma samples_length_pair (raw : list byte) :
  List.length (samples raw) = Nat.div2 (List.length raw)
  /\ forall b, List.length (samples (b :: raw))
               = Nat.div2 (S (List.length raw)).
Proof.
  induction raw as [|a raw [IH1 IH2]].
  - split; [reflexivity | intros b; reflexivity].
  - split.
    + apply IH2.
    + intros b. cbn [samples List.length Nat.div2]. now rewrite IH1.
Qed.

Lemma samples_length (raw : list byte) :
  List.length (samples raw) = (List.length raw / 2)%nat.
Proof.
  rewrite <- Nat.div2_div. apply samples_length_pair.
Qed.

Lemma frames_length (c : nat) (l : list Q) :
  (0 < c)%nat -> List.length (frames c l) = (List.length l / c)%nat.
Proof.
  funelim (frames c l); intros Hc.
  - lia.
  - cbn [List.length]. rewrite H by lia. rewrite length_skipn.
    replace (List.length l) with (List.length l - S k + 1 * S k)%nat at 2
      by lia.
    rewrite Nat.div_add by lia. lia.
  - cbn [List.length]. symmetry. apply Nat.div_small. lia.
Qed.

Lemma frames_complete (c : nat) (l : list Q) :
  Forall (fun f => List.length f = c) (frames c l).
Proof.
  funelim (frames c l).
  - constructor.
  - constructor; [| assumption].
    rewrite length_firstn. lia.
  - constructor.
Qed.

(** The frames, laid end to end, are the samples up to the last whole
    frame: nothing is reordered or invented. *)
Lemma frames_concat (c : nat) (l : list Q) :
  (0 < c)%nat ->
  exists rest, l = concat (frames c l) ++ rest
               /\ (List.length rest < c)%nat.
Proof.
  funelim (frames c l); intros Hc.
  - lia.
  - destruct H as [rest [Hl Hr]]; [lia |].
    exists rest. split; [| assumption].
    cbn [concat]. rewrite <- app_assoc, <- Hl.
    symmetry. apply firstn_skipn.
  - exists l. split; [reflexivity | lia].
Qed.

Lemma frames_Forall (P : Q -> Prop) (c : nat) (l : list Q) :
  Forall P l -> Forall (Forall P) (frames c l).
Proof.
  funelim (frames c l); intros Hl.
  - constructor.
  - rewrite <- (firstn_skipn (S k) l) in Hl.
    apply Forall_app in Hl. destruct Hl as [Hf Hs].
    constructor; [assumption | apply H; assumption].
  - constructor.
Qed.

Lemma int16_le_range (lo hi : byte) :
  (-32768 <= int16_le lo hi <= 32767)%Z.
Proof.
  unfold int16_le.
  pose proof (Byte.to_N_bounded lo). pose proof (Byte.to_N_bounded hi).
  destruct (Z.leb_spec 32768
              (Z.of_N (Byte.to_N lo) + 256 * Z.of_N (Byte.to_N hi))); lia.
Qed.

Lemma samples_Forall (P : Z -> Prop) (raw : list byte) :
  (forall lo hi, P (int16_le lo hi)) ->
  Forall P (samples raw) /\ forall b, Forall P (samples (b :: raw)).
Proof.
  intros HP. induction raw as [|a raw [IH1 IH2]].
  - split; [constructor | intros b; constructor].
  - split; [apply IH2 |].
    intros b. cbn [samples]. constructor; [apply HP | apply IH1].
Qed.

Lemma scale_range (s : Z) :
  (-32768 <= s <= 32767)%Z -> in_unit_range (scale s).
Proof.
  intros Hs. unfold in_unit_range, scale, Qle. cbn. lia.
Qed.

Lemma frames_of_bytes_length (raw : list byte) (c : nat) :
  (0 < c)%nat ->
  List.length (frames c (map scale (samples raw)))
  = (List.length raw / (2 * c))%nat.
Proof.
  intros Hc. rewrite frames_length by assumption.
  rewrite length_map, samples_length.
  apply Nat.Div0.div_div.
Qed.

(** C1: for a positive channel count [c], a byte sequence of length N
    decodes (always: the decoder is a total function, a trailing incomplete
    frame is dropped, never an error) to exactly floor(N / (2*c)) frames. *)
Theorem pcm_frame_count (raw : list byte) (rate : Z) (c : nat) :
  (0 < c)%nat ->
  frameCount (pcmToAudioBuffer raw rate c) = (List.length raw / (2 * c))%nat.
Proof.
  intros Hc. unfold frameCount, pcmToAudioBuffer. cbn [channelFrames].
  now apply frames_of_bytes_length.
Qed.

Lemma pcm_frame_count_witness :
  (0 < 1)%nat
  /\ frameCount (pcmToAudioBuffer [x00; x00; xff; x7f; x01] 24000 1)
     = (5 / (2 * 1))%nat.
Proof.
  split; [lia | apply (@pcm_frame_count [x00; x00; xff; x7f; x01] 24000 1); lia].
Defined.

(** Truncation law: one more byte after a frame-aligned payload does not
    change the frame count. *)
Lemma pcm_truncation_law (raw : list byte) (b : byte) (rate : Z) (c : nat) :
  (0 < c)%nat -> (List.length raw mod (2 * c) = 0)%nat ->
  frameCount (pcmToAudioBuffer (raw ++ [b]) rate c)
  = frameCount (pcmToAudioBuffer raw rate c).
Proof.
  intros Hc Hal. unfold frameCount, pcmToAudioBuffer. cbn [channelFrames].
  rewrite !frames_of_bytes_length by assumption.
  rewrite length_app. cbn [List.length].
  symmetry. apply Nat.div_unique with (r := 1%nat); [lia |].
  pose proof (Nat.div_mod_eq (List.length raw) (2 * c)) as E.
  rewrite Hal in E. lia.
Qed.

(** The scenario of the specification: the samples 0x0000 and 0x7FFF. *)
Example pcm_scenario :
  option_map (fun raw => channelFrames (pcmToAudioBuffer raw 24000 1))
    (decode "AAD/fw==")
  = Some [[0 # 32768]; [32767 # 32768]].
Proof. vm_compute. reflexivity. Qed.

(** C2: every sample of a decoded buffer lies in [-1, 1]; a sample is the
    16-bit little-endian signed value divided by 32768, so 0x8000 gives
    exactly -1 and 0x7FFF gives 32767/32768, which is 0.999969 to six
    decimals. *)
Theorem pcm_amplitude_bound :
  (forall (raw : list byte) (rate : Z) (c : nat),
      Forall (Forall in_unit_range)
        (channelFrames (pcmToAudioBuffer raw rate c)))
  /\ (forall lo hi : byte,
        scale (int16_le lo hi) == inject_Z (int16_le lo hi) / 32768)
  /\ int16_le x00 x80 = (-32768)%Z
  /\ channelFrames (pcmToAudioBuffer [x00; x80] 24000 1) = [[scale (-32768)]]
  /\ scale (-32768) == -1
  /\ int16_le xff x7f = 32767%Z
  /\ channelFrames (pcmToAudioBuffer [xff; x7f] 24000 1) = [[scale 32767]]
  /\ 9999685 # 10000000 <= scale 32767 /\ scale 32767 < 9999695 # 10000000.
Proof.
  split; [| split].
  - intros raw rate c. unfold pcmToAudioBuffer. cbn [channelFrames].
    apply frames_Forall. apply Forall_map.
    apply (samples_Forall (fun s => in_unit_range (scale s))).
    intros lo hi. apply scale_range, int16_le_range.
  - intros lo hi. unfold scale. rewrite Qmake_Qdiv. reflexivity.
  - repeat match goal with |- _ /\ _ => split end.
    + reflexivity.
    + reflexivity.
    + reflexivity.
    + reflexivity.
    + reflexivity.
    + unfold scale, Qle. cbn. lia.
    + unfold scale, Qlt. cbn. lia.
Qed.

End DecoderFacts.

(* ===================================================================== *)
(** * Properties of the audio handler *)
(* ===================================================================== *)

Section CardFacts.
Import Service Card.

Variable result : Result.

Lemma phase_Idle (c : Card) :
  phase c = Idle <-> isGeneratingAudio c = false /\ isPlaying c = false.
Proof.
  unfold phase. destruct (isGeneratingAudio c), (isPlaying c);
    split; intros H; try discriminate; try (destruct H; discriminate); auto.
Qed.

Lemma phase_Playing (c : Card) :
  phase c = Playing <-> isGeneratingAudio c = false /\ isPlaying c = true.
Proof.
  unfold phase. destruct (isGeneratingAudio c), (isPlaying c);
    split; intros H; try discriminate; try (destruct H; discriminate); auto.
Qed.

Lemma phase_Generating (c : Card) :
  phase c = Generating <-> isGeneratingAudio c = true.
Proof.
  unfold phase. destruct (isGeneratingAudio c), (isPlaying c);
    split; intros H; try discriminate; auto.
Qed.

(** Whether the audio context can be had and is, or can be made, running. *)
Lemma resume_plays (b64 : string) (bytes : list byte) (env : AudioEnv)
    (c : Card) :
  audio_ready env c = true -> Audio.decode b64 = Some bytes ->
  nodes c = [] ->
  resumeAudioAction (Resolved b64) env c
  = (mkCard false true (audioError c) (Some running) (Some (next_node c))
       [mkNode (next_node c) Running
          (Some (Audio.pcmToAudioBuffer bytes 24000 1)) true]
       (S (next_node c)) (requests c) (console c),
     inr tt).
Proof.
  intros Hready Hdec Hnodes.
  destruct c as [g p err ctx ref nds nxt reqs con]. cbn in Hnodes. subst nds.
  unfold audio_ready in Hready. cbn in Hready.
  unfold resumeAudioAction, try_catch_finally, bind, await, ret,
    ensureAudioContext, resumeIfSuspended, decodeBytes, gets, modify,
    createBufferSource, setBuffer, connect, start, setIsPlaying,
    setIsGeneratingAudio, throw.
  rewrite Hdec.
  destruct env as [[|] [|] [|]], ctx as [[|]|]; cbn in Hready |- *;
    try discriminate Hready;
    rewrite ?Nat.eqb_refl; cbn; rewrite ?Nat.eqb_refl; reflexivity.
Qed.

(** When the request, the audio context or the decoding fails, the [catch]
    and [finally] blocks leave an idle card with the error message, no
    source node, and the call returns. *)
Lemma resume_fails (speech : Settled string) (env : AudioEnv) (c : Card) :
  nodes c = [] ->
  match speech with
  | Rejected _ => True
  | Resolved b64 => audio_ready env c = false \/ Audio.decode b64 = None
  end ->
  exists ctx con,
    resumeAudioAction speech env c
    = (mkCard false false (Some audioErrorMessage) ctx (sourceNodeRef c) []
         (next_node c) (requests c) con,
       inr tt).
Proof.
  intros Hnodes Hfail.
  destruct c as [g p err ctx ref nds nxt reqs con]. cbn in Hnodes. subst nds.
  unfold resumeAudioAction, try_catch_finally, bind, await, ret,
    ensureAudioContext, resumeIfSuspended, decodeBytes, gets, modify,
    createBufferSource, setBuffer, connect, start, setIsPlaying,
    setIsGeneratingAudio, setAudioError, consoleError, throw.
  destruct speech as [b64 | e].
  - destruct Hfail as [Hready | Hdec].
    + unfold audio_ready in Hready.
      destruct env as [[|] [|] [|]], ctx as [[|]|]; cbn in Hready |- *;
        try discriminate Hready;
        destruct (Audio.decode b64); cbn; eexists; eexists; reflexivity.
    + rewrite Hdec.
      destruct env as [[|] [|] [|]], ctx as [[|]|]; cbn;
        eexists; eexists; reflexivity.
  - cbn. eexists; eexists; reflexivity.
Qed.

(** The two lemmas cover every way the suspended call can resume. *)
Lemma resume_cases (speech : Settled string) (env : AudioEnv) (c : Card) :
  (exists b64 bytes, speech = Resolved b64 /\ audio_ready env c = true
                     /\ Audio.decode b64 = Some bytes)
  \/ match speech with
     | Rejected _ => True
     | Resolved b64 => audio_ready env c = false \/ Audio.decode b64 = None
     end.
Proof.
  destruct speech as [b64 | e]; [| right; exact I].
  destruct (audio_ready env c) eqn:Hr; [| right; left; reflexivity].
  destruct (Audio.decode b64) as [bytes |] eqn:Hd; [| right; right; reflexivity].
  left. exists b64, bytes. auto.
Qed.

Lemma invariant_initial : invariant initial.
Proof.
  unfold invariant, initial. cbn.
  repeat split; intros; try discriminate; reflexivity.
Qed.

(** The stop call on the one started node: the node is halted, nothing
    else changes, and the call returns. *)
Lemma stop_started_source (c : Card) (nd : SourceNode) :
  nodes c = [nd] -> started nd = true ->
  sourceNodeRef c = Some (node_id nd) ->
  stopCurrentSource c = (with_nodes [set_status Halted nd] c, inr tt).
Proof.
  intros Hnds Hst Href.
  unfold stopCurrentSource, bind, gets, stop, find_node, update_node.
  rewrite Href, Hnds. cbn. rewrite !Nat.eqb_refl.
  unfold started in Hst.
  destruct (node_status nd); [discriminate Hst | reflexivity | reflexivity].
Qed.

Lemma stop_without_source (c : Card) :
  sourceNodeRef c = None -> stopCurrentSource c = (c, inr tt).
Proof.
  intros Href. unfold stopCurrentSource, bind, gets. rewrite Href. reflexivity.
Qed.

(** The handler while playing is the stop call and nothing more. *)
Lemma handle_when_playing (c : Card) :
  isPlaying c = true -> handleAudioAction result c = stopCurrentSource c.
Proof.
  intros Hp. unfold handleAudioAction, bind, gets. cbn. rewrite Hp. reflexivity.
Qed.

(** The handler on an idle card with a summary: the request goes out. *)
Lemma handle_when_idle (c : Card) :
  isPlaying c = false -> summary result <> ""%string ->
  handleAudioAction result c
  = (with_requests (requests c ++ [summary result])
       (with_audioError None (with_isGeneratingAudio true c)),
     inr tt).
Proof.
  intros Hp Hs. unfold handleAudioAction, bind, gets. cbn. rewrite Hp.
  destruct (String.eqb_spec (summary result) ""); [contradiction |].
  reflexivity.
Qed.

Lemma handle_without_summary (c : Card) :
  isPlaying c = false -> summary result = ""%string ->
  handleAudioAction result c = (c, inr tt).
Proof.
  intros Hp Hs. unfold handleAudioAction, bind, gets. cbn. rewrite Hp, Hs.
  reflexivity.
Qed.

Lemma invariant_click (c : Card) :
  invariant c -> isGeneratingAudio c = false ->
  invariant (fst (handleAudioAction result c)).
Proof.
  intros Hinv Hg0. pose proof Hinv as (Hg & Hng & Hnp & Hp).
  destruct (isPlaying c) eqn:Ep.
  - rewrite handle_when_playing by assumption.
    destruct (Hp eq_refl) as (nd & Hnds & Hst & Href).
    rewrite (stop_started_source c nd Hnds Hst Href).
    unfold invariant. cbn. rewrite Ep, Hg0.
    split; [intros; discriminate |].
    split; [intros _; apply Hng; assumption |].
    split; [intros; discriminate |].
    intros _. exists (set_status Halted nd). auto.
  - destruct (String.eqb_spec (summary result) "") as [Hs | Hs].
    + rewrite handle_without_summary by assumption. assumption.
    + rewrite handle_when_idle by assumption.
      unfold invariant. cbn. rewrite Ep, (Hng Hg0).
      split; [intros _; split; [reflexivity | eexists; reflexivity] |].
      split; [intros; discriminate |].
      split; [intros _; apply Hnp; reflexivity | intros; discriminate].
Qed.

Lemma invariant_resume (speech : Settled string) (env : AudioEnv) (c : Card)
    (t : string) :
  invariant c -> requests c = [t] ->
  invariant (fst (resumeAudioAction speech env (with_requests [] c))).
Proof.
  intros (Hg & Hng & Hnp & Hp) Hreq.
  assert (Eg : isGeneratingAudio c = true).
  { destruct (isGeneratingAudio c); [reflexivity |].
    rewrite (Hng eq_refl) in Hreq. discriminate. }
  destruct (Hg Eg) as [Ep _]. destruct (Hnp Ep) as [Hnds Href].
  destruct (resume_cases speech env (with_requests [] c))
    as [(b64 & bytes & -> & Hready & Hdec) | Hfail].
  - rewrite (resume_plays b64 bytes env (with_requests [] c) Hready Hdec Hnds).
    unfold invariant. cbn.
    split; [intros; discriminate |].
    split; [reflexivity |].
    split; [intros; discriminate |].
    intros _. eexists. split; [reflexivity | split; reflexivity].
  - destruct (resume_fails speech env (with_requests [] c) Hnds Hfail)
      as (ctx' & con' & ->).
    unfold invariant. cbn.
    split; [intros; discriminate |].
    split; [reflexivity |].
    split; [intros _; split; [reflexivity | assumption] | intros; discriminate].
Qed.

Lemma find_single_node (n : nat) (nd nd' : SourceNode) :
  find_node n [nd] = Some nd' -> n = node_id nd /\ nd' = nd.
Proof.
  unfold find_node. cbn.
  destruct (Nat.eqb_spec (node_id nd) n) as [E | E]; intros H;
    [inversion H; subst; split; reflexivity | discriminate H].
Qed.

(** The end notification of the one node: the node is gone, the ref is
    cleared, the card no longer plays. *)
Lemma ended_releases (c : Card) (nd : SourceNode) :
  nodes c = [nd] ->
  onended (node_id nd) c
  = (mkCard (isGeneratingAudio c) false (audioError c) (audioContextRef c)
       None [] (next_node c) (requests c) (console c),
     inr tt).
Proof.
  intros Hnds. unfold onended, bind, modify, setIsPlaying. cbn.
  rewrite Hnds. cbn. rewrite Nat.eqb_refl. reflexivity.
Qed.

Lemma invariant_step (e : Event) (c c' : Card) :
  invariant c -> step result e c = Some c' -> invariant c'.
Proof.
  intros Hinv Hstep. pose proof Hinv as (Hg & Hng & Hnp & Hp).
  destruct e as [| api env | n]; unfold step in Hstep.
  - unfold disabled in Hstep.
    destruct (isGeneratingAudio c) eqn:Eg; injection Hstep as <-.
    + assumption.
    + apply invariant_click; assumption.
  - destruct (requests c) as [| t rest] eqn:Hreq; [discriminate |].
    injection Hstep as <-.
    assert (Eg : isGeneratingAudio c = true).
    { destruct (isGeneratingAudio c); [reflexivity |].
      discriminate (Hng eq_refl). }
    destruct (Hg Eg) as [_ [t' Ht']]. inversion Ht'; subst t' rest.
    apply invariant_resume with (t := t); assumption.
  - destruct (find_node n (nodes c)) as [nd' |] eqn:Hfind; [| discriminate].
    destruct (started nd') eqn:Hst; [| discriminate].
    injection Hstep as <-.
    destruct (isPlaying c) eqn:Ep.
    + destruct (Hp eq_refl) as (nd & Hnds & _ & _).
      rewrite Hnds in Hfind. apply find_single_node in Hfind.
      destruct Hfind as [-> ->].
      change (invariant (fst (onended (node_id nd) c))).
      rewrite (ended_releases c nd Hnds).
      assert (Eg : isGeneratingAudio c = false).
      { destruct (isGeneratingAudio c); [| reflexivity].
        destruct (Hg eq_refl) as [E _]. discriminate E. }
      unfold invariant. cbn. rewrite Eg.
      split; [intros; discriminate |].
      split; [intros _; apply Hng, Eg |].
      split; [intros _; split; reflexivity | intros; discriminate].
    + destruct (Hnp eq_refl) as [Hnds _]. rewrite Hnds in Hfind.
      discriminate Hfind.
Qed.

Lemma reachable_invariant (c : Card) : reachable result c -> invariant c.
Proof.
  induction 1 as [| e c c' _ IH Hstep].
  - apply invariant_initial.
  - eapply invariant_step; eassumption.
Qed.

Lemma run_reachable (es : list Event) (c c' : Card) :
  reachable result c -> run result es c = Some c' -> reachable result c'.
Proof.
  revert c. induction es as [| e es IH]; intros c Hc Hrun; cbn in Hrun.
  - inversion Hrun; subst; assumption.
  - destruct (step result e c) as [c1 |] eqn:Hstep; [| discriminate].
    apply (IH c1); [| assumption].
    eapply reach_step; eassumption.
Qed.

(** In a playing card there is exactly one source node, started, and the
    ref holds it. *)
Lemma playing_source (c : Card) :
  reachable result c -> phase c = Playing ->
  exists nd, nodes c = [nd] /\ started nd = true
             /\ sourceNodeRef c = Some (node_id nd).
Proof.
  intros Hr Hph. apply phase_Playing in Hph. destruct Hph as [_ Ep].
  destruct (reachable_invariant c Hr) as (_ & _ & _ & Hp). auto.
Qed.

Lemma not_playing_no_source (c : Card) :
  reachable result c -> isPlaying c = false ->
  nodes c = [] /\ sourceNodeRef c = None.
Proof.
  intros Hr Ep.
  destruct (reachable_invariant c Hr) as (_ & _ & Hnp & _). auto.
Qed.

Lemma generating_request (c : Card) :
  reachable result c -> phase c = Generating ->
  isPlaying c = false /\ exists t, requests c = [t].
Proof.
  intros Hr Hph. apply phase_Generating in Hph.
  destruct (reachable_invariant c Hr) as (Hg & _). auto.
Qed.

End CardFacts.

Section PlaybackClaims.
Import Service Card.

Variable result : Result.

(** Stop on a playing card, then the end notification it causes. *)
Lemma stop_then_end (c : Card) :
  reachable result c -> phase c = Playing ->
  exists nd,
    nodes c = [nd] /\ sourceNodeRef c = Some (node_id nd)
    /\ handleAudioAction result c
       = (with_nodes [set_status Halted nd] c, inr tt)
    /\ step result Click c = Some (with_nodes [set_status Halted nd] c)
    /\ step result (Ended (node_id nd)) (with_nodes [set_status Halted nd] c)
       = Some (mkCard false false (audioError c) (audioContextRef c) None []
                 (next_node c) [] (console c)).
Proof.
  intros Hr Hph.
  destruct (playing_source result c Hr Hph) as (nd & Hnds & Hst & Href).
  apply phase_Playing in Hph. destruct Hph as [Eg Ep].
  destruct (reachable_invariant result c Hr) as (_ & Hng & _ & _).
  assert (Hact : handleAudioAction result c
                 = (with_nodes [set_status Halted nd] c, inr tt)).
  { rewrite handle_when_playing by assumption.
    apply stop_started_source; assumption. }
  exists nd. repeat split; try assumption.
  - unfold step, disabled. rewrite Eg, Hact. reflexivity.
  - unfold step, find_node. cbn. rewrite Nat.eqb_refl. cbn.
    rewrite ?Nat.eqb_refl. cbn.
    unfold with_sourceNodeRef, with_isPlaying, with_nodes. cbn.
    rewrite Eg, (Hng Eg). reflexivity.
Qed.

(** C4: in every card the events can produce there is at most one source
    node, and none unless the card is playing.  A playing card is left on
    two paths, and the node is released on both: its end notification
    (natural end) removes it, clears the ref and leaves the card idle; a
    stop halts it at once and the end notification that follows does the
    same.  No other step leaves the playing phase (no error path does), and
    a failure while generating leaves no node behind. *)
Theorem one_device_at_most (c : Card) :
  reachable result c ->
  (List.length (nodes c) <= 1)%nat
  /\ (phase c <> Playing -> nodes c = [] /\ sourceNodeRef c = None)
  /\ (phase c = Playing ->
      exists nd,
        nodes c = [nd] /\ sourceNodeRef c = Some (node_id nd)
        /\ (exists c',
              step result (Ended (node_id nd)) c = Some c'
              /\ phase c' = Idle /\ nodes c' = []
              /\ sourceNodeRef c' = None)
        /\ (exists c1 c2,
              step result Click c = Some c1
              /\ nodes c1 = [set_status Halted nd]
              /\ step result (Ended (node_id nd)) c1 = Some c2
              /\ phase c2 = Idle /\ nodes c2 = []
              /\ sourceNodeRef c2 = None))
  /\ (forall e c', step result e c = Some c' ->
        phase c = Playing -> phase c' <> Playing ->
        (exists n, e = Ended n) /\ nodes c' = [] /\ sourceNodeRef c' = None)
  /\ (forall api env c',
        phase c = Generating ->
        step result (SpeechSettled api env) c = Some c' ->
        phase c' <> Playing ->
        nodes c' = [] /\ sourceNodeRef c' = None).
Proof.
  intros Hr. pose proof (reachable_invariant result c Hr) as Hinv.
  destruct Hinv as (Hg & Hng & Hnp & Hp).
  assert (Hidle : forall d, reachable result d -> phase d <> Playing ->
                            nodes d = [] /\ sourceNodeRef d = None).
  { intros d Hd Hph.
    destruct (reachable_invariant result d Hd) as (Hg' & _ & Hnp' & _).
    apply Hnp'. unfold phase in Hph.
    destruct (isGeneratingAudio d) eqn:Eg.
    - apply Hg'; reflexivity.
    - destruct (isPlaying d); [contradiction Hph; reflexivity | reflexivity]. }
  split; [| split; [| split; [| split]]].
  - destruct (isPlaying c) eqn:Ep.
    + destruct (Hp eq_refl) as (nd & -> & _). cbn. lia.
    + destruct (Hnp eq_refl) as [-> _]. cbn. lia.
  - apply Hidle. assumption.
  - intros Hph.
    destruct (stop_then_end c Hr Hph) as (nd & Hnds & Href & _ & Hclick & Hend).
    destruct (playing_source result c Hr Hph) as (nd' & Hnds' & Hst & _).
    rewrite Hnds in Hnds'. injection Hnds' as <-.
    pose proof Hph as Hph0.
    apply phase_Playing in Hph0. destruct Hph0 as [Eg Ep].
    exists nd. split; [exact Hnds |]. split; [exact Href |]. split.
    + eexists. split.
      * assert (Hf : find_node (node_id nd) (nodes c) = Some nd).
        { rewrite Hnds. unfold find_node. cbn. now rewrite Nat.eqb_refl. }
        unfold step. rewrite Hf, Hst.
        rewrite (ended_releases c nd Hnds). reflexivity.
      * cbn. rewrite Eg. repeat split.
    + eexists. eexists. split; [exact Hclick |].
      split; [reflexivity |]. split; [exact Hend |]. repeat split.
  - intros e c' Hstep Hph Hph'.
    assert (Hr' : reachable result c') by (eapply reach_step; eassumption).
    split; [| apply Hidle; assumption].
    destruct e as [| api env | n].
    + destruct (stop_then_end c Hr Hph) as (nd & _ & _ & _ & Hclick & _).
      rewrite Hclick in Hstep. injection Hstep as <-.
      contradiction Hph'.
    + apply phase_Playing in Hph. destruct Hph as [Eg _].
      unfold step in Hstep. rewrite (Hng Eg) in Hstep. discriminate.
    + exists n. reflexivity.
  - intros api env c' _ Hstep Hph'.
    apply Hidle; [| exact Hph'].
    eapply reach_step; eassumption.
Qed.

(** C5: when the speech request fails, or its payload does not decode (or
    no running audio context can be had), the suspended call resumes,
    returns without throwing, and leaves the card idle with the error
    message and no source node. *)
Theorem generation_failure_recovers (c : Card)
    (api : Settled GenerateContentResponse) (env : AudioEnv) :
  reachable result c -> phase c = Generating ->
  match generateSpeech api with
  | Rejected _ => True
  | Resolved b64 => Audio.decode b64 = None \/ audio_ready env c = false
  end ->
  exists c',
    step result (SpeechSettled api env) c = Some c'
    /\ returns (resumeAudioAction (generateSpeech api) env
                  (with_requests [] c))
    /\ phase c' = Idle
    /\ audioError c' = Some audioErrorMessage
    /\ nodes c' = [] /\ sourceNodeRef c' = None /\ requests c' = [].
Proof.
  intros Hr Hph Hfail.
  destruct (generating_request result c Hr Hph) as [Ep [t Hreq]].
  destruct (not_playing_no_source result c Hr Ep) as [Hnds Href].
  assert (Hfail' :
    match generateSpeech api with
    | Rejected _ => True
    | Resolved b64 =>
        audio_ready env (with_requests [] c) = false
        \/ Audio.decode b64 = None
    end).
  { destruct (generateSpeech api); [| exact I].
    destruct Hfail as [Hd | Ha]; [right; exact Hd | left; exact Ha]. }
  destruct (resume_fails (generateSpeech api) env (with_requests [] c)
              Hnds Hfail') as (ctx' & con' & Heq).
  eexists. split.
  - unfold step. rewrite Hreq, Heq. reflexivity.
  - split; [exists tt; rewrite Heq; reflexivity |].
    cbn. repeat split. assumption.
Qed.

(** C6 (as the code has it): a stop requested while the card is generating
    changes nothing (the button is disabled, the stop call finds no source
    node, and no cancellation is recorded anywhere); when the speech
    response then arrives, decodes, and the audio context is ready, one
    source node is created and started and the card is playing. *)
Theorem stop_while_generating_is_ignored (c : Card) :
  reachable result c -> phase c = Generating ->
  step result Click c = Some c
  /\ stopCurrentSource c = (c, inr tt)
  /\ forall api env b64 bytes,
       generateSpeech api = Resolved b64 ->
       Audio.decode b64 = Some bytes ->
       audio_ready env c = true ->
       exists c',
         step result (SpeechSettled api env) c = Some c'
         /\ phase c' = Playing
         /\ nodes c'
            = [mkNode (next_node c) Running
                 (Some (Audio.pcmToAudioBuffer bytes 24000 1)) true]
         /\ sourceNodeRef c' = Some (next_node c)
         /\ audioError c' = audioError c.
Proof.
  intros Hr Hph.
  destruct (generating_request result c Hr Hph) as [Ep [t Hreq]].
  destruct (not_playing_no_source result c Hr Ep) as [Hnds Href].
  apply phase_Generating in Hph.
  split; [| split].
  - unfold step, disabled. rewrite Hph. reflexivity.
  - apply stop_without_source. assumption.
  - intros api env b64 bytes Hsp Hdec Hready.
    eexists. split.
    + unfold step. rewrite Hreq, Hsp.
      rewrite (resume_plays b64 bytes env (with_requests [] c) Hready Hdec Hnds).
      reflexivity.
    + cbn. repeat split.
Qed.

(** C7 (as the code has it): the audio action on a playing card is the stop
    call and nothing else: it halts the source node, issues no speech
    request and does not enter the generating phase; after the node's end
    notification the card is idle, with no request outstanding. *)
Theorem action_while_playing_only_stops (c : Card) :
  reachable result c -> phase c = Playing ->
  handleAudioAction result c = stopCurrentSource c
  /\ exists nd c1 c2,
       handleAudioAction result c = (c1, inr tt)
       /\ nodes c1 = [set_status Halted nd]
       /\ requests c1 = [] /\ phase c1 = Playing
       /\ step result (Ended (node_id nd)) c1 = Some c2
       /\ phase c2 = Idle /\ requests c2 = [] /\ nodes c2 = [].
Proof.
  intros Hr Hph.
  destruct (stop_then_end c Hr Hph) as (nd & _ & _ & Hact & _ & Hend).
  pose proof Hph as Hph0.
  apply phase_Playing in Hph. destruct Hph as [Eg Ep].
  destruct (reachable_invariant result c Hr) as (_ & Hng & _ & _).
  split; [apply handle_when_playing; assumption |].
  exists nd. eexists. eexists.
  split; [exact Hact |]. split; [reflexivity |].
  split; [cbn; apply Hng, Eg |]. split; [exact Hph0 |].
  split; [exact Hend |]. repeat split.
Qed.

(** C10: on an idle card whose result has an empty summary the audio action
    returns at once and the card is unchanged: no request, no phase change,
    no source node, no error. *)
Theorem empty_summary_is_noop (c : Card) :
  summary result = ""%string -> phase c = Idle ->
  handleAudioAction result c = (c, inr tt)
  /\ step result Click c = Some c.
Proof.
  intros Hs Hph. apply phase_Idle in Hph. destruct Hph as [Eg Ep].
  assert (H : handleAudioAction result c = (c, inr tt))
    by (apply handle_without_summary; assumption).
  split; [exact H |].
  unfold step, disabled. rewrite Eg, H. reflexivity.
Qed.

End PlaybackClaims.

Section PlaybackScenarios.
Import Service Card Scenario.

Lemma playing_is_reached :
  run briefing [Click; SpeechSettled (speech "AAD/fw==") browser] initial
  = Some playing.
Proof. vm_compute. reflexivity. Qed.

Lemma playing_reachable : reachable briefing playing.
Proof.
  apply (run_reachable briefing
           [Click; SpeechSettled (speech "AAD/fw==") browser] initial).
  - apply reach_initial.
  - apply playing_is_reached.
Qed.

Lemma generating_reachable :
  reachable briefing (mkCard true false None None None [] 0 ["- Haber"%string] []).
Proof.
  apply (reach_step briefing Click initial); [apply reach_initial |].
  vm_compute. reflexivity.
Qed.

Lemma one_device_at_most_witness :
  reachable briefing playing
  /\ (exists c',
        step briefing (Ended 0) playing = Some c'
        /\ phase c' = Idle /\ nodes c' = [] /\ sourceNodeRef c' = None)
  /\ (exists c1 c2,
        step briefing Click playing = Some c1
        /\ nodes c1
           = [mkNode 0 Halted
                (Some (Audio.pcmToAudioBuffer [x00; x00; xff; x7f] 24000 1))
                true]
        /\ step briefing (Ended 0) c1 = Some c2
        /\ phase c2 = Idle /\ nodes c2 = [] /\ sourceNodeRef c2 = None).
Proof.
  split; [exact playing_reachable |].
  destruct (one_device_at_most briefing playing playing_reachable)
    as (_ & _ & Hplay & _).
  destruct (Hplay eq_refl) as (nd & Hnds & _ & Hnat & Hstop).
  cbn in Hnds. injection Hnds as <-.
  split; [exact Hnat | exact Hstop].
Defined.

Lemma generation_failure_recovers_witness :
  exists c',
    step briefing (SpeechSettled (Rejected "503") browser)
      (mkCard true false None None None [] 0 ["- Haber"%string] [])
    = Some c'
    /\ phase c' = Idle /\ audioError c' = Some audioErrorMessage
    /\ nodes c' = [].
Proof.
  destruct (generation_failure_recovers briefing
              (mkCard true false None None None [] 0 ["- Haber"%string] [])
              (Rejected "503") browser generating_reachable eq_refl I)
    as (c' & Hstep & _ & Hph & Herr & Hnds & _).
  exists c'. auto.
Defined.

(** A payload that is not base64 ends in the same idle card. *)
Example undecodable_payload_recovers :
  option_map (fun c => (phase c, audioError c, nodes c))
    (run briefing [Click; SpeechSettled (speech "AA*/fw==") browser] initial)
  = Some (Idle, Some audioErrorMessage, []).
Proof. vm_compute. reflexivity. Qed.

(** C6, as the specification states it, fails: after a click on the
    generating card (the stop request), the arrival of the speech response
    allocates a source node and the card is playing, not idle. *)
Lemma stop_while_generating_counterexample :
  exists g c',
    run briefing [Click] initial = Some g /\ phase g = Generating
    /\ run briefing [Click; SpeechSettled (speech "AAD/fw==") browser] g
       = Some c'
    /\ phase c' = Playing /\ List.length (nodes c') = 1%nat
    /\ ~ (phase c' = Idle /\ nodes c' = []).
Proof.
  eexists. eexists.
  split; [vm_compute; reflexivity |].
  split; [reflexivity |].
  split; [vm_compute; reflexivity |].
  split; [reflexivity |]. split; [reflexivity |].
  intros [H _]. discriminate H.
Qed.

Lemma stop_while_generating_is_ignored_witness :
  exists c',
    step briefing (SpeechSettled (speech "AAD/fw==") browser)
      (mkCard true false None None None [] 0 ["- Haber"%string] [])
    = Some c'
    /\ phase c' = Playing.
Proof.
  destruct (stop_while_generating_is_ignored briefing
              (mkCard true false None None None [] 0 ["- Haber"%string] [])
              generating_reachable eq_refl)
    as (_ & _ & Harrive).
  destruct (Harrive (speech "AAD/fw==") browser "AAD/fw=="%string
              [x00; x00; xff; x7f] eq_refl eq_refl eq_refl)
    as (c' & Hstep & Hph & _).
  exists c'. auto.
Defined.

(** C7, as the specification states it, fails: the audio action on the
    playing card does not end in the generating phase and issues no
    request, before or after the end notification, whereas stop followed by
    a fresh start does. *)
Lemma action_while_playing_counterexample :
  exists c1 c2 c3,
    handleAudioAction briefing playing = (c1, inr tt)
    /\ phase c1 <> Generating /\ requests c1 = []
    /\ step briefing (Ended 0) c1 = Some c2
    /\ phase c2 = Idle /\ requests c2 = []
    /\ step briefing Click c2 = Some c3
    /\ phase c3 = Generating /\ requests c3 = [summary briefing]
    /\ c1 <> c3 /\ c2 <> c3.
Proof.
  eexists. eexists. eexists.
  split; [vm_compute; reflexivity |].
  split; [discriminate |]. split; [reflexivity |].
  split; [vm_compute; reflexivity |].
  split; [reflexivity |]. split; [reflexivity |].
  split; [vm_compute; reflexivity |].
  split; [reflexivity |]. split; [reflexivity |].
  split; discriminate.
Qed.

Lemma action_while_playing_only_stops_witness :
  reachable briefing playing
  /\ handleAudioAction briefing playing = stopCurrentSource playing.
Proof.
  split; [exact playing_reachable |].
  apply (action_while_playing_only_stops briefing playing playing_reachable
           eq_refl).
Defined.

Lemma empty_summary_is_noop_witness :
  summary silent = ""%string /\ phase initial = Idle
  /\ handleAudioAction silent initial = (initial, inr tt).
Proof.
  split; [reflexivity |]. split; [reflexivity |].
  apply (empty_summary_is_noop silent initial eq_refl eq_refl).
Defined.

End PlaybackScenarios.

(* ===================================================================== *)
(** * Properties of the summarization service *)
(* ===================================================================== *)

Section ServiceClaims.
Import Service.

Lemma summarize_resolves (response : GenerateContentResponse) :
  exists chunks,
    summarizeNewsWithGoogleSearch (Resolved response)
    = Resolved (text response, chunks).
Proof. eexists. reflexivity. Qed.

(** C9: for every response of the collaborator the summarize operation
    returns a (summary, groundingChunks) pair and no error; when the
    response carries no citation records the list is empty, and when it
    carries some they are returned as they are. *)
Theorem summarize_defaults_to_no_citations
    (response : GenerateContentResponse) :
  (exists chunks,
      summarizeNewsWithGoogleSearch (Resolved response)
      = Resolved (text response, chunks))
  /\ (citations_absent response ->
        summarizeNewsWithGoogleSearch (Resolved response)
        = Resolved (text response, []))
  /\ (forall cand rest md l,
        candidates response = Some (cand :: rest) ->
        groundingMetadata cand = Some md ->
        groundingChunks md = Some l ->
        summarizeNewsWithGoogleSearch (Resolved response)
        = Resolved (text response, l)).
Proof.
  split; [apply summarize_resolves |]. split.
  - intros Habs. unfold citations_absent in Habs.
    unfold summarizeNewsWithGoogleSearch, chain, first, or_default.
    destruct (candidates response) as [[| cand rest] |]; cbn; try reflexivity.
    destruct (groundingMetadata cand) as [md |]; cbn; [| reflexivity].
    rewrite Habs. reflexivity.
  - intros cand rest md l Hc Hm Hl.
    unfold summarizeNewsWithGoogleSearch, chain, first, or_default.
    rewrite Hc. cbn. rewrite Hm, Hl. reflexivity.
Qed.

Lemma summarize_defaults_to_no_citations_witness :
  citations_absent Scenario.bare_summary
  /\ summarizeNewsWithGoogleSearch (Resolved Scenario.bare_summary)
     = Resolved (Some "- Haber"%string, []).
Proof.
  split; [exact I |].
  apply (summarize_defaults_to_no_citations Scenario.bare_summary). exact I.
Defined.

(** The only error of the operation is the failure of the call itself. *)
Lemma summarize_rejects_when_call_fails (e : string) :
  summarizeNewsWithGoogleSearch (Rejected e)
  = Rejected "Failed to summarize news.".
Proof. reflexivity. Qed.

Lemma generateSpeech_rejects_when_call_fails (e : string) :
  generateSpeech (Rejected e) = Rejected "Failed to generate speech.".
Proof. reflexivity. Qed.

Lemma generateSpeech_rejects_without_audio :
  generateSpeech (Resolved (mkResponse (Some "x"%string) None))
  = Rejected "Failed to generate speech.".
Proof. reflexivity. Qed.

End ServiceClaims.

(* ===================================================================== *)
(** * Properties of the favorites store *)
(* ===================================================================== *)

Section FavoritesClaims.
Import Favorites.

Lemma favorited_iff (store : list FavoriteItem) (t : string) :
  isFavoritedCheck store t = true <-> In t (texts store).
Proof.
  unfold isFavoritedCheck, texts. rewrite existsb_exists, in_map_iff.
  split; intros (item & H1 & H2).
  - exists item. apply String.eqb_eq in H2. auto.
  - exists item. split; [assumption | apply String.eqb_eq; assumption].
Qed.

Lemma NoDup_texts_filter (f : FavoriteItem -> bool)
    (store : list FavoriteItem) :
  NoDup (texts store) -> NoDup (texts (filter f store)).
Proof.
  unfold texts. induction store as [| x l IH]; intros H; cbn.
  - constructor.
  - inversion H as [| ? ? Hnot Hl]; subst.
    destruct (f x); cbn; [| auto].
    constructor; [| auto].
    intros Hin. apply Hnot. apply in_map_iff in Hin.
    destruct Hin as (y & Hy & Hin). apply filter_In in Hin.
    apply in_map_iff. exists y. tauto.
Qed.

Lemma insert_by_timestamp_perm (x : FavoriteItem) (l : list FavoriteItem) :
  Permutation (insert_by_timestamp x l) (x :: l).
Proof.
  induction l as [| y ys IH]; cbn.
  - apply Permutation_refl.
  - destruct (timestamp y <=? timestamp x)%Z.
    + apply Permutation_refl.
    + eapply perm_trans; [apply perm_skip, IH | apply perm_swap].
Qed.

Lemma sortFavorites_perm (l : list FavoriteItem) :
  Permutation (sortFavorites l) l.
Proof.
  induction l as [| x l IH]; cbn.
  - apply perm_nil.
  - eapply perm_trans; [apply insert_by_timestamp_perm |].
    apply perm_skip, IH.
Qed.

Lemma count_text_removed (t : string) (store : list FavoriteItem) :
  count_text t (filter (fun item => negb (String.eqb (text item) t)) store)
  = 0%nat.
Proof.
  unfold count_text. induction store as [| x l IH]; cbn; [reflexivity |].
  destruct (String.eqb (text x) t) eqn:E; cbn; [assumption |].
  rewrite E. assumption.
Qed.

Lemma filter_absent (t : string) (store : list FavoriteItem) :
  isFavoritedCheck store t = false ->
  filter (fun item => negb (String.eqb (text item) t)) store = store.
Proof.
  unfold isFavoritedCheck. induction store as [| x l IH]; cbn; [reflexivity |].
  intros H. apply orb_false_elim in H. destruct H as [Hx Hl].
  rewrite Hx. cbn. now rewrite IH.
Qed.

Lemma apply_NoDup (o : Op) (store : list FavoriteItem) :
  NoDup (texts store) -> NoDup (texts (apply o store)).
Proof.
  intros H. destruct o as [now t s ts | i |]; cbn.
  - unfold handleAddFavorite.
    destruct (existsb (fun item => String.eqb (text item) t) store) eqn:E.
    + apply NoDup_texts_filter. assumption.
    + cbn. constructor; [| assumption].
      intros Hin. apply favorited_iff in Hin.
      unfold isFavoritedCheck in Hin. congruence.
  - apply NoDup_texts_filter. assumption.
  - eapply Permutation_NoDup; [| exact H].
    unfold texts. apply Permutation_map. apply Permutation_sym.
    apply sortFavorites_perm.
Qed.

Lemma applyAll_NoDup (ops : list Op) (store : list FavoriteItem) :
  NoDup (texts store) -> NoDup (texts (applyAll ops store)).
Proof.
  revert store. induction ops as [| o ops IH]; intros store H; cbn.
  - assumption.
  - apply IH. apply apply_NoDup. assumption.
Qed.

(** C8: adding text T to a store without an entry of text T puts a new
    entry in front; adding T to a store with such an entry removes every
    entry of text T and keeps the others; adding T twice to a store without
    it gives the store back; and a store without two entries of one text
    (the empty initial store is one) stays so under every sequence of add,
    remove and render operations. *)
Theorem favorites_toggle :
  (forall now t s ts prev,
      isFavoritedCheck prev t = false ->
      handleAddFavorite now t s ts prev = mkFavorite now t s ts :: prev)
  /\ (forall now t s ts prev,
        isFavoritedCheck prev t = true ->
        handleAddFavorite now t s ts prev
        = filter (fun item => negb (String.eqb (text item) t)) prev
        /\ isFavoritedCheck (handleAddFavorite now t s ts prev) t = false
        /\ count_text t (handleAddFavorite now t s ts prev) = 0%nat
        /\ forall item, In item (handleAddFavorite now t s ts prev)
                        <-> In item prev /\ text item <> t)
  /\ (forall now now' t s s' ts ts' prev,
        isFavoritedCheck prev t = false ->
        handleAddFavorite now' t s' ts' (handleAddFavorite now t s ts prev)
        = prev)
  /\ (forall ops store,
        NoDup (texts store) -> NoDup (texts (applyAll ops store)))
  /\ (forall ops, NoDup (texts (applyAll ops []))).
Proof.
  split; [| split; [| split; [| split]]].
  - intros now t s ts prev H. unfold handleAddFavorite.
    unfold isFavoritedCheck in H. rewrite H. reflexivity.
  - intros now t s ts prev H.
    assert (E : handleAddFavorite now t s ts prev
                = filter (fun item => negb (String.eqb (text item) t)) prev).
    { unfold handleAddFavorite. unfold isFavoritedCheck in H.
      rewrite H. reflexivity. }
    rewrite E. split; [reflexivity |]. split; [| split].
    + destruct (isFavoritedCheck
                  (filter (fun item => negb (String.eqb (text item) t)) prev) t)
        eqn:F; [| reflexivity].
      apply favorited_iff in F. unfold texts in F.
      apply in_map_iff in F. destruct F as (y & Hy & Hin).
      apply filter_In in Hin. destruct Hin as [_ Hneg].
      rewrite <- Hy, String.eqb_refl in Hneg. discriminate Hneg.
    + apply count_text_removed.
    + intros item. rewrite filter_In.
      split; intros [Hin Hx]; (split; [assumption |]).
      * intros Heq. rewrite Heq, String.eqb_refl in Hx. discriminate Hx.
      * destruct (String.eqb_spec (text item) t); [contradiction | reflexivity].
  - intros now now' t s s' ts ts' prev H.
    unfold handleAddFavorite at 2. unfold isFavoritedCheck in H. rewrite H.
    unfold handleAddFavorite. cbn. rewrite String.eqb_refl. cbn.
    apply filter_absent. exact H.
  - apply applyAll_NoDup.
  - intros ops. apply applyAll_NoDup. constructor.
Qed.

Lemma favorites_toggle_witness :
  isFavoritedCheck [] "Haber"%string = false
  /\ handleAddFavorite "id2" "Haber" "Kaynak" 2
       (handleAddFavorite "id1" "Haber" "Kaynak" 1 [])
     = [].
Proof.
  split; [reflexivity |].
  destruct favorites_toggle as (_ & _ & Htwice & _).
  apply (Htwice "id1" "id2" "Haber" "Kaynak" "Kaynak" 1%Z 2%Z [])%string.
  reflexivity.
Defined.

(** A store that already holds one text twice keeps the duplicate when
    another text is added: the bound above starts from a store without
    duplicates. *)
Example duplicates_are_not_repaired :
  texts (handleAddFavorite "id3" "B" "Kaynak" 3
           [mkFavorite "id1" "A" "Kaynak" 1; mkFavorite "id2" "A" "Kaynak" 2])
  = ["B"; "A"; "A"]%string.
Proof. reflexivity. Qed.

End FavoritesClaims.

(* ===================================================================== *)
(** * Properties of the news items *)
(* ===================================================================== *)

Section NewsItemsFacts.
Import NewsItems.

Lemma trimStart_suffix (s : JSString) : exists p, s = p ++ trimStart s.
Proof.
  induction s as [| u r [p Hp]]; cbn.
  - exists []. reflexivity.
  - destruct (is_space u).
    + exists (u :: p). cbn. now rewrite <- Hp.
    + exists []. reflexivity.
Qed.

Lemma trimStart_first (s : JSString) (u : N) :
  first_unit (trimStart s) = Some u -> is_space u = false.
Proof.
  induction s as [| v r IH]; cbn; [discriminate |].
  destruct (is_space v) eqn:E; [exact IH |].
  cbn. intros H. injection H as <-. exact E.
Qed.

Lemma trimStart_id (s : JSString) :
  (forall u, first_unit s = Some u -> is_space u = false) ->
  trimStart s = s.
Proof.
  destruct s as [| v r]; cbn; [reflexivity |].
  intros H. now rewrite (H v eq_refl).
Qed.

Lemma trimStart_spaces (ws body : JSString) :
  forallb is_space ws = true ->
  (forall u, first_unit body = Some u -> is_space u = false) ->
  trimStart (ws ++ body) = body.
Proof.
  intros Hws Hb. induction ws as [| w ws IH]; cbn.
  - apply trimStart_id. exact Hb.
  - cbn in Hws. apply andb_prop in Hws. destruct Hws as [Hw Hws].
    rewrite Hw. apply IH. exact Hws.
Qed.

Lemma trimEnd_prefix (s : JSString) : exists q, s = trimEnd s ++ q.
Proof.
  unfold trimEnd. destruct (trimStart_suffix (rev s)) as [p Hp].
  exists (rev p). rewrite <- rev_app_distr, <- Hp. symmetry. apply rev_involutive.
Qed.

Lemma trimEnd_last (s : JSString) (u : N) :
  last_unit (trimEnd s) = Some u -> is_space u = false.
Proof.
  unfold last_unit, trimEnd. rewrite rev_involutive. apply trimStart_first.
Qed.

Lemma first_unit_app (s q : JSString) :
  s <> [] -> first_unit (s ++ q) = first_unit s.
Proof. destruct s; [contradiction | reflexivity]. Qed.

Lemma last_unit_app (p s : JSString) :
  s <> [] -> last_unit (p ++ s) = last_unit s.
Proof.
  intros Hs. unfold last_unit. rewrite rev_app_distr.
  apply first_unit_app. intros E. apply Hs.
  rewrite <- (rev_involutive s), E. reflexivity.
Qed.

Lemma trim_first (s : JSString) (u : N) :
  first_unit (trim s) = Some u -> is_space u = false.
Proof.
  unfold trim. intros H.
  destruct (trimEnd_prefix (trimStart s)) as [q Hq].
  apply (trimStart_first s). rewrite Hq.
  rewrite first_unit_app; [exact H |].
  intros E. rewrite E in H. discriminate H.
Qed.

Lemma trim_last (s : JSString) (u : N) :
  last_unit (trim s) = Some u -> is_space u = false.
Proof. unfold trim. apply trimEnd_last. Qed.

Lemma trim_sub (s : JSString) : exists p q, s = p ++ trim s ++ q.
Proof.
  unfold trim. destruct (trimStart_suffix s) as [p Hp].
  destruct (trimEnd_prefix (trimStart s)) as [q Hq].
  exists p, q. now rewrite <- Hq.
Qed.

Lemma trim_id (s : JSString) :
  (forall u, first_unit s = Some u -> is_space u = false) ->
  (forall u, last_unit s = Some u -> is_space u = false) ->
  trim s = s.
Proof.
  intros Hf Hl. unfold trim. rewrite (trimStart_id s Hf).
  unfold trimEnd. rewrite trimStart_id; [apply rev_involutive | exact Hl].
Qed.

Lemma skip_digits_suffix (s : JSString) : exists p, s = p ++ skip_digits s.
Proof.
  induction s as [| u r [p Hp]]; cbn.
  - exists []. reflexivity.
  - destruct (is_digit u).
    + exists (u :: p). cbn. now rewrite <- Hp.
    + exists []. reflexivity.
Qed.

Lemma skip_digits_all (ds rest : JSString) (u : N) :
  forallb is_digit ds = true -> is_digit u = false ->
  skip_digits (ds ++ u :: rest) = u :: rest.
Proof.
  intros Hds Hu. induction ds as [| d ds IH]; cbn.
  - now rewrite Hu.
  - cbn in Hds. apply andb_prop in Hds. destruct Hds as [Hd Hds].
    rewrite Hd. apply IH. exact Hds.
Qed.

Lemma strip_marker_suffix (t : JSString) : exists p, t = p ++ strip_marker t.
Proof.
  destruct t as [| u r]; cbn; [exists []; reflexivity |].
  destruct ((u =? 45) || (u =? 42))%N.
  - destruct (trimStart_suffix r) as [p Hp]. exists (u :: p). cbn.
    now rewrite <- Hp.
  - destruct (is_digit u); [| exists []; reflexivity].
    destruct (skip_digits_suffix r) as [p Hp].
    destruct (skip_digits r) as [| d r'] eqn:E; [exists []; reflexivity |].
    destruct (d =? 46)%N; [| exists []; reflexivity].
    destruct (trimStart_suffix r') as [p' Hp'].
    exists (u :: p ++ d :: p'). cbn. rewrite <- app_assoc. cbn.
    now rewrite <- Hp', <- Hp.
Qed.

Lemma strip_marker_first (t : JSString) (u : N) :
  (forall v, first_unit t = Some v -> is_space v = false) ->
  first_unit (strip_marker t) = Some u -> is_space u = false.
Proof.
  intros Ht. destruct t as [| v r]; cbn; [discriminate |].
  destruct ((v =? 45) || (v =? 42))%N; [apply trimStart_first |].
  destruct (is_digit v); [| exact (Ht u)].
  destruct (skip_digits r) as [| d r']; [exact (Ht u) |].
  destruct (d =? 46)%N; [apply trimStart_first | exact (Ht u)].
Qed.

Lemma split_lines_nonempty (s : JSString) : split_lines s <> [].
Proof.
  destruct s as [| u r]; cbn; [discriminate |].
  destruct (u =? 10)%N; [discriminate |].
  destruct (split_lines r); discriminate.
Qed.

Lemma split_lines_no_newline (s : JSString) :
  Forall (fun l => ~ In 10%N l) (split_lines s).
Proof.
  induction s as [| u r IH]; cbn.
  - constructor; [intros [] | constructor].
  - destruct (N.eqb_spec u 10) as [E | E].
    + constructor; [intros [] | exact IH].
    + destruct (split_lines r) as [| l ls]; cbn.
      * constructor; [| constructor]. intros [H | []]. congruence.
      * inversion IH as [| ? ? Hl Hls]; subst.
        constructor; [| exact Hls].
        intros [H | H]; [congruence | exact (Hl H)].
Qed.

Lemma split_lines_single (s : JSString) :
  ~ In 10%N s -> split_lines s = [s].
Proof.
  induction s as [| u r IH]; cbn; [reflexivity |].
  intros H. destruct (N.eqb_spec u 10) as [E | E].
  - exfalso. apply H. left. exact E.
  - rewrite IH; [reflexivity |]. intros Hin. apply H. right. exact Hin.
Qed.

Lemma split_lines_app (a b : JSString) :
  split_lines (a ++ 10%N :: b) = split_lines a ++ split_lines b.
Proof.
  induction a as [| u r IH]; cbn; [reflexivity |].
  destruct (u =? 10)%N; [now rewrite IH |].
  rewrite IH. pose proof (split_lines_nonempty r) as Hne.
  destruct (split_lines r) as [| l ls]; [contradiction | reflexivity].
Qed.

Lemma split_lines_count (s : JSString) :
  List.length (split_lines s) = S (count_occ N.eq_dec s 10%N).
Proof.
  induction s as [| u r IH]; cbn; [reflexivity |].
  destruct (N.eqb_spec u 10) as [E | E].
  - destruct (N.eq_dec u 10); [| contradiction]. cbn. now rewrite IH.
  - destruct (N.eq_dec u 10); [contradiction |].
    pose proof (split_lines_nonempty r) as Hne.
    destruct (split_lines r) as [| l ls]; [contradiction |].
    cbn in *. exact IH.
Qed.

Lemma item_tidy (line : JSString) :
  ~ In 10%N line -> strip_marker (trim line) <> [] ->
  tidy (strip_marker (trim line)).
Proof.
  intros Hnl Hne.
  destruct (strip_marker_suffix (trim line)) as [p Hp].
  destruct (trim_sub line) as (p' & q' & Hline).
  unfold tidy. split; [exact Hne |]. split; [| split].
  - intros Hin. apply Hnl. rewrite Hline, Hp.
    apply in_or_app. right. apply in_or_app. left.
    apply in_or_app. right. exact Hin.
  - intros u. apply strip_marker_first. intros v. apply trim_first.
  - intros u Hu. apply (trim_last line). rewrite Hp.
    rewrite last_unit_app; assumption.
Qed.

(** X1: every news item of a summary is non-empty, lies on one line and
    has no white space at its start or end; there are at most as many items
    as the summary has lines. *)
Theorem newsItems_tidy (summary : JSString) :
  Forall tidy (newsItems summary)
  /\ (List.length (newsItems summary)
      <= S (count_occ N.eq_dec summary 10%N))%nat.
Proof.
  split.
  - unfold newsItems. apply Forall_forall. intros item Hin.
    apply filter_In in Hin. destruct Hin as [Hin Hne].
    apply in_map_iff in Hin. destruct Hin as (line & <- & Hline).
    pose proof (split_lines_no_newline summary) as Hall.
    rewrite Forall_forall in Hall.
    apply item_tidy; [apply Hall; exact Hline |].
    intros E. rewrite E in Hne. discriminate Hne.
  - unfold newsItems. rewrite <- split_lines_count.
    eapply Nat.le_trans; [apply filter_length_le |].
    rewrite length_map. apply Nat.le_refl.
Qed.

(** X2: the items of two texts joined by a line break are the items of the
    first followed by the items of the second. *)
Theorem newsItems_lines_compose (a b : JSString) :
  newsItems (a ++ 10%N :: b) = newsItems a ++ newsItems b.
Proof.
  unfold newsItems. rewrite split_lines_app, map_app, filter_app. reflexivity.
Qed.

(** X3: a line made of a dash, a star, or a number and a dot, then white
    space, then a tidy text shows as that text alone; only one such marker
    is removed. *)
Theorem newsItems_strips_one_marker (ws body : JSString) :
  tidy body -> forallb is_space ws = true -> ~ In 10%N ws ->
  newsItems (45%N :: ws ++ body) = [body]
  /\ newsItems (42%N :: ws ++ body) = [body]
  /\ (forall d ds, forallb is_digit (d :: ds) = true ->
        newsItems (d :: ds ++ 46%N :: ws ++ body) = [body])
  /\ newsItems (45%N :: ws ++ 45%N :: ws ++ body) = [45%N :: ws ++ body].
Proof.
  intros (Hne & Hnl & Hfirst & Hlast) Hws Hwsnl.
  assert (Hbody_last : forall p u, last_unit (p ++ body) = Some u ->
                                   is_space u = false).
  { intros p u. rewrite last_unit_app by exact Hne. apply Hlast. }
  assert (Hitem : forall line,
             ~ In 10%N line ->
             (forall u, first_unit line = Some u -> is_space u = false) ->
             (forall u, last_unit line = Some u -> is_space u = false) ->
             strip_marker line <> [] ->
             newsItems line = [strip_marker line]).
  { intros line H10 Hf Hl Hs. unfold newsItems.
    rewrite (split_lines_single line H10). cbn.
    rewrite (trim_id line Hf Hl).
    destruct (strip_marker line); [contradiction | reflexivity]. }
  assert (Hnot10 : forall pre, ~ In 10%N pre -> ~ In 10%N (pre ++ ws ++ body)).
  { intros pre Hpre Hin. apply in_app_or in Hin. destruct Hin as [H | H];
      [exact (Hpre H) |].
    apply in_app_or in H. destruct H as [H | H]; [exact (Hwsnl H) | exact (Hnl H)]. }
  assert (Hmark : forall m, ((m =? 45) || (m =? 42))%N = true ->
                            newsItems (m :: ws ++ body) = [body]).
  { intros m Hm.
    assert (Hms : is_space m = false).
    { apply orb_prop in Hm.
      destruct Hm as [E | E]; apply N.eqb_eq in E; subst m; reflexivity. }
    assert (Hs : strip_marker (m :: ws ++ body) = body).
    { cbn. rewrite Hm. apply trimStart_spaces; assumption. }
    rewrite Hitem; [now rewrite Hs | | | | now rewrite Hs].
    - apply (Hnot10 [m]). intros [E | []]. subst m. discriminate Hm.
    - intros u Hu. cbn in Hu. injection Hu as <-. exact Hms.
    - intros u. change (m :: ws ++ body) with ((m :: ws) ++ body).
      apply Hbody_last. }
  split; [apply Hmark; reflexivity |].
  split; [apply Hmark; reflexivity |].
  split.
  - intros d ds Hds. cbn in Hds. apply andb_prop in Hds.
    destruct Hds as [Hd Hds].
    assert (Hd45 : ((d =? 45) || (d =? 42))%N = false).
    { unfold is_digit in Hd. apply andb_prop in Hd. destruct Hd as [H1 H2].
      apply N.leb_le in H1.
      destruct (N.eqb_spec d 45); [lia |].
      destruct (N.eqb_spec d 42); [lia | reflexivity]. }
    assert (Hdsp : is_space d = false).
    { unfold is_digit in Hd. apply andb_prop in Hd. destruct Hd as [H1 H2].
      apply N.leb_le in H1. apply N.leb_le in H2. unfold is_space.
      repeat match goal with
             | |- context [(d =? ?k)%N] =>
                 destruct (N.eqb_spec d k); [lia |]
             end.
      destruct (N.leb_spec 8192 d); [lia | reflexivity]. }
    assert (Hs : strip_marker (d :: ds ++ 46%N :: ws ++ body) = body).
    { cbn. rewrite Hd45, Hd.
      rewrite (skip_digits_all ds (ws ++ body) 46%N Hds eq_refl). cbn.
      apply trimStart_spaces; assumption. }
    rewrite Hitem; [now rewrite Hs | | | | now rewrite Hs].
    + change (d :: ds ++ 46%N :: ws ++ body)
        with ((d :: ds) ++ 46%N :: ws ++ body).
      intros Hin. apply in_app_or in Hin. destruct Hin as [H | H].
      * assert (Hall : forallb is_digit (d :: ds) = true)
          by (cbn; now rewrite Hd, Hds).
        rewrite forallb_forall in Hall. specialize (Hall _ H).
        discriminate Hall.
      * apply (Hnot10 [46%N]); [| exact H]. intros [E | []]. discriminate E.
    + intros u Hu. cbn in Hu. injection Hu as <-. exact Hdsp.
    + intros u.
      replace (d :: ds ++ 46%N :: ws ++ body)
        with ((d :: ds ++ 46%N :: ws) ++ body)
        by (cbn; rewrite <- app_assoc; reflexivity).
      apply Hbody_last.
  - assert (Hs : strip_marker (45%N :: ws ++ 45%N :: ws ++ body)
                 = 45%N :: ws ++ body).
    { cbn. apply (trimStart_spaces ws (45%N :: ws ++ body) Hws).
      intros u Hu. cbn in Hu. injection Hu as <-. reflexivity. }
    rewrite Hitem; [now rewrite Hs | | | | rewrite Hs; discriminate].
    + change (45%N :: ws ++ 45%N :: ws ++ body)
        with ([45%N] ++ ws ++ [45%N] ++ ws ++ body).
      intros Hin. apply in_app_or in Hin. destruct Hin as [[E | []] | H];
        [discriminate E |].
      apply in_app_or in H. destruct H as [H | H]; [exact (Hwsnl H) |].
      apply (Hnot10 [45%N]); [| exact H]. intros [E | []]. discriminate E.
    + intros u Hu. cbn in Hu. injection Hu as <-. reflexivity.
    + intros u.
      replace (45%N :: ws ++ 45%N :: ws ++ body)
        with ((45%N :: ws ++ 45%N :: ws) ++ body)
        by (cbn; rewrite <- app_assoc; reflexivity).
      apply Hbody_last.
Qed.

Lemma newsItems_strips_one_marker_witness :
  newsItems [45; 32; 72; 105]%N = [[72; 105]%N]
  /\ newsItems [49; 50; 46; 32; 72; 105]%N = [[72; 105]%N].
Proof.
  assert (Ht : tidy [72; 105]%N).
  { unfold tidy. split; [discriminate |]. split.
    - intros [H | [H | []]]; discriminate H.
    - split; intros u H; cbn in H; injection H as <-; reflexivity. }
  destruct (newsItems_strips_one_marker [32%N] [72; 105]%N Ht eq_refl)
    as (H1 & _ & H3 & _).
  { intros [H | []]. discriminate H. }
  split; [exact H1 | exact (H3 49%N [50%N] eq_refl)].
Defined.

End NewsItemsFacts.

(* ===================================================================== *)
(** * Further properties of the favorites and of the render order *)
(* ===================================================================== *)

Section SortFacts.
Import App.

Context {A : Type} (key : A -> Z).

Lemma insert_desc_perm (x : A) (l : list A) :
  Permutation (insert_desc key x l) (x :: l).
Proof.
  induction l as [| y ys IH]; cbn.
  - apply Permutation_refl.
  - destruct (key y <=? key x)%Z.
    + apply Permutation_refl.
    + eapply perm_trans; [apply perm_skip, IH | apply perm_swap].
Qed.

Lemma sort_desc_perm (l : list A) : Permutation (sort_desc key l) l.
Proof.
  induction l as [| x l IH]; cbn.
  - apply perm_nil.
  - eapply perm_trans; [apply insert_desc_perm | apply perm_skip, IH].
Qed.

Lemma insert_desc_sorted (x : A) (l : list A) :
  newest_first key l -> newest_first key (insert_desc key x l).
Proof.
  unfold newest_first. induction l as [| y ys IH]; intros Hl; cbn.
  - constructor; constructor.
  - inversion Hl as [| ? ? Hys Hall]; subst.
    destruct (Z.leb_spec (key y) (key x)) as [Hle | Hgt].
    + constructor; [exact Hl |].
      constructor; [exact Hle |].
      eapply Forall_impl; [| exact Hall]. cbn. intros b Hb. lia.
    + constructor; [apply IH; exact Hys |].
      eapply Permutation_Forall;
        [apply Permutation_sym, insert_desc_perm |].
      constructor; [lia | exact Hall].
Qed.

Lemma sort_desc_sorted (l : list A) : newest_first key (sort_desc key l).
Proof.
  induction l as [| x l IH]; cbn.
  - constructor.
  - apply insert_desc_sorted. exact IH.
Qed.

Lemma insert_desc_same_time (t : Z) (x : A) (l : list A) :
  same_time key t (insert_desc key x l) = same_time key t (x :: l).
Proof.
  unfold same_time. induction l as [| y ys IH]; cbn; [reflexivity |].
  destruct (Z.leb_spec (key y) (key x)) as [Hle | Hgt]; [reflexivity |].
  cbn. rewrite IH. cbn.
  destruct (Z.eqb_spec (key x) t), (Z.eqb_spec (key y) t);
    try reflexivity. lia.
Qed.

Lemma sort_desc_same_time (t : Z) (l : list A) :
  same_time key t (sort_desc key l) = same_time key t l.
Proof.
  induction l as [| x l IH]; [reflexivity |].
  change (sort_desc key (x :: l)) with (insert_desc key x (sort_desc key l)).
  rewrite insert_desc_same_time. unfold same_time in *. cbn.
  now rewrite IH.
Qed.

Lemma sort_desc_of_sorted (l : list A) :
  newest_first key l -> sort_desc key l = l.
Proof.
  unfold newest_first. induction l as [| x l IH]; intros Hl;
    [reflexivity |].
  change (sort_desc key (x :: l)) with (insert_desc key x (sort_desc key l)).
  inversion Hl as [| ? ? Hs Hall]; subst. rewrite (IH Hs).
  destruct l as [| y ys]; cbn; [reflexivity |].
  inversion Hall as [| ? ? Hy _]; subst.
  destruct (Z.leb_spec (key y) (key x)); [reflexivity | lia].
Qed.

End SortFacts.

Section FavoritesExtras.
Import Favorites.

Lemma insert_by_timestamp_desc (x : FavoriteItem) (l : list FavoriteItem) :
  insert_by_timestamp x l = App.insert_desc timestamp x l.
Proof.
  induction l as [| y ys IH]; cbn; [reflexivity |]. now rewrite IH.
Qed.

Lemma sortFavorites_desc (l : list FavoriteItem) :
  sortFavorites l = App.sort_desc timestamp l.
Proof.
  induction l as [| x l IH]; cbn; [reflexivity |].
  unfold sortFavorites in IH. rewrite IH. apply insert_by_timestamp_desc.
Qed.

(** X4: after the star of text T is pressed, T is a favorite exactly when
    it was not one before, and every other text keeps its star. *)
Theorem favorite_star_toggles (now t s : string) (ts : Z)
    (prev : list FavoriteItem) (t' : string) :
  isFavoritedCheck (handleAddFavorite now t s ts prev) t'
  = if String.eqb t' t then negb (isFavoritedCheck prev t)
    else isFavoritedCheck prev t'.
Proof.
  unfold handleAddFavorite.
  change (existsb (fun item => String.eqb (text item) t) prev)
    with (isFavoritedCheck prev t).
  destruct (isFavoritedCheck prev t) eqn:Ht.
  - assert (Hf : forall u l,
              isFavoritedCheck
                (filter (fun item => negb (String.eqb (text item) t)) l) u
              = if String.eqb u t then false else isFavoritedCheck l u).
    { intros u l. unfold isFavoritedCheck.
      induction l as [| x l IH]; cbn.
      - destruct (String.eqb u t); reflexivity.
      - destruct (String.eqb_spec (text x) t) as [E | E]; cbn.
        + rewrite IH. destruct (String.eqb_spec u t) as [Eu | Eu];
            [reflexivity |].
          destruct (String.eqb_spec (text x) u) as [Ex | Ex];
            [congruence | reflexivity].
        + rewrite IH. destruct (String.eqb_spec u t) as [Eu | Eu];
            [| reflexivity].
          subst u. destruct (String.eqb_spec (text x) t);
            [contradiction | reflexivity]. }
    rewrite Hf. destruct (String.eqb t' t); reflexivity.
  - unfold isFavoritedCheck at 1. cbn.
    destruct (String.eqb_spec t' t) as [E | E].
    + subst t'. rewrite String.eqb_refl. reflexivity.
    + destruct (String.eqb_spec t t'); [congruence | reflexivity].
Qed.

(** X5: removing by id drops every favorite of that id (ids are time
    stamps and can coincide) and keeps the others in their order; removing
    a favorite right after adding it, when neither its text nor its id was
    in the store, gives the store back. *)
Theorem favorite_remove (i : string) (prev : list FavoriteItem) :
  (forall x, In x (handleRemoveFavorite i prev)
             <-> In x prev /\ id x <> i)
  /\ handleRemoveFavorite i (handleRemoveFavorite i prev)
     = handleRemoveFavorite i prev
  /\ (forall t s ts,
        isFavoritedCheck prev t = false ->
        (forall x, In x prev -> id x <> i) ->
        handleRemoveFavorite i (handleAddFavorite i t s ts prev) = prev).
Proof.
  split; [| split].
  - intros x. unfold handleRemoveFavorite. rewrite filter_In.
    split; intros [Hin Hx]; (split; [exact Hin |]).
    + intros E. rewrite E, String.eqb_refl in Hx. discriminate Hx.
    + destruct (String.eqb_spec (id x) i); [contradiction | reflexivity].
  - unfold handleRemoveFavorite. induction prev as [| x l IH]; cbn;
      [reflexivity |].
    destruct (String.eqb (id x) i) eqn:E; cbn; [exact IH |].
    rewrite E. cbn. now rewrite IH.
  - intros t s ts Ht Hid. unfold handleAddFavorite.
    unfold isFavoritedCheck in Ht. rewrite Ht.
    unfold handleRemoveFavorite. cbn. rewrite String.eqb_refl. cbn.
    induction prev as [| x l IH]; cbn; [reflexivity |].
    destruct (String.eqb_spec (id x) i) as [E | E].
    + exfalso. apply (Hid x); [left; reflexivity | exact E].
    + cbn. rewrite IH; [reflexivity | |].
      * cbn in Ht. apply orb_false_elim in Ht. apply Ht.
      * intros y Hy. apply Hid. right. exact Hy.
Qed.

Lemma favorite_remove_witness :
  handleRemoveFavorite "id2"
    (handleAddFavorite "id2" "B" "Kaynak" 2 [mkFavorite "id1" "A" "Kaynak" 1])
  = [mkFavorite "id1" "A" "Kaynak" 1].
Proof.
  destruct (favorite_remove "id2" [mkFavorite "id1" "A" "Kaynak" 1])
    as (_ & _ & H).
  apply H; [reflexivity |].
  intros x [<- | []]. discriminate.
Defined.

(** X6: a render leaves both state arrays newest first, with the same
    entries, entries of one time stamp in the order they had; rendering
    again changes nothing. *)
Theorem render_sorts_newest_first (s : App.State) :
  App.newest_first App.timestamp (App.history (App.render s))
  /\ App.newest_first timestamp (App.favorites (App.render s))
  /\ Permutation (App.history (App.render s)) (App.history s)
  /\ Permutation (App.favorites (App.render s)) (App.favorites s)
  /\ (forall t, App.same_time App.timestamp t (App.history (App.render s))
                = App.same_time App.timestamp t (App.history s))
  /\ (forall t, App.same_time timestamp t (App.favorites (App.render s))
                = App.same_time timestamp t (App.favorites s))
  /\ App.render (App.render s) = App.render s.
Proof.
  assert (Hh : forall h : list App.Result,
             App.sort_desc App.timestamp (App.sort_desc App.timestamp h)
             = App.sort_desc App.timestamp h)
    by (intros h; apply sort_desc_of_sorted, sort_desc_sorted).
  assert (Hf : forall f, sortFavorites (sortFavorites f) = sortFavorites f).
  { intros f. rewrite !sortFavorites_desc.
    apply sort_desc_of_sorted, sort_desc_sorted. }
  unfold App.render, App.with_favorites, App.with_history.
  cbn -[App.sort_desc sortFavorites].
  rewrite Hh, Hf. rewrite !sortFavorites_desc.
  split; [apply sort_desc_sorted |].
  split; [apply sort_desc_sorted |].
  split; [apply sort_desc_perm |].
  split; [apply sort_desc_perm |].
  split; [intros t; apply sort_desc_same_time |].
  split; [intros t; apply sort_desc_same_time | reflexivity].
Qed.

End FavoritesExtras.

(* ===================================================================== *)
(** * Further properties of the audio handler *)
(* ===================================================================== *)

Section CardExtras.
Import Service Card.

Variable result : Result.

Lemma resume_fails_context (speech : Settled string) (env : AudioEnv)
    (c : Card) :
  nodes c = [] ->
  match speech with
  | Rejected _ => True
  | Resolved b64 => audio_ready env c = false \/ Audio.decode b64 = None
  end ->
  audioContextRef c <> None ->
  audioContextRef (fst (resumeAudioAction speech env c)) <> None.
Proof.
  intros Hnodes Hfail Hctx.
  destruct c as [g p err ctx ref nds nxt reqs con]. cbn in Hnodes, Hctx.
  subst nds.
  unfold resumeAudioAction, try_catch_finally, bind, await, ret,
    ensureAudioContext, resumeIfSuspended, decodeBytes, gets, modify,
    createBufferSource, setBuffer, connect, start, setIsPlaying,
    setIsGeneratingAudio, setAudioError, consoleError, throw.
  destruct speech as [b64 | e].
  - destruct Hfail as [Hready | Hdec].
    + unfold audio_ready in Hready.
      destruct env as [[|] [|] [|]], ctx as [[|]|]; cbn in Hready |- *;
        try discriminate Hready; try contradiction;
        destruct (Audio.decode b64); cbn; discriminate.
    + rewrite Hdec.
      destruct env as [[|] [|] [|]], ctx as [[|]|]; cbn;
        try contradiction; discriminate.
  - destruct ctx; [cbn; discriminate | contradiction].
Qed.

(** Every step of a reachable card is one of six. *)
Lemma step_cases (e : Event) (c c' : Card) :
  reachable result c -> step result e c = Some c' ->
  (e = Click /\ c' = c /\ phase c <> Playing)
  \/ (e = Click /\ phase c = Playing
      /\ exists nd, nodes c = [nd] /\ started nd = true
                    /\ sourceNodeRef c = Some (node_id nd)
                    /\ c' = with_nodes [set_status Halted nd] c)
  \/ (e = Click /\ phase c = Idle /\ summary result <> ""%string
      /\ c' = with_requests [summary result]
                (with_audioError None (with_isGeneratingAudio true c)))
  \/ (phase c = Generating
      /\ exists api env b64 bytes,
           e = SpeechSettled api env
           /\ generateSpeech api = Resolved b64
           /\ Audio.decode b64 = Some bytes
           /\ c' = mkCard false true (audioError c) (Some running)
                     (Some (next_node c))
                     [mkNode (next_node c) Running
                        (Some (Audio.pcmToAudioBuffer bytes 24000 1)) true]
                     (S (next_node c)) [] (console c))
  \/ (phase c = Generating
      /\ exists api env ctx con,
           e = SpeechSettled api env
           /\ (audioContextRef c <> None -> ctx <> None)
           /\ c' = mkCard false false (Some audioErrorMessage) ctx None []
                     (next_node c) [] con)
  \/ (phase c = Playing
      /\ exists nd, e = Ended (node_id nd) /\ nodes c = [nd]
                    /\ c' = mkCard false false (audioError c)
                              (audioContextRef c) None [] (next_node c) []
                              (console c)).
Proof.
  intros Hr Hstep.
  pose proof (reachable_invariant result c Hr) as (Hg & Hng & Hnp & Hp).
  destruct e as [| api env | n]; unfold step in Hstep.
  - unfold disabled in Hstep.
    destruct (isGeneratingAudio c) eqn:Eg; injection Hstep as <-.
    + left. repeat split. unfold phase. rewrite Eg. discriminate.
    + destruct (isPlaying c) eqn:Ep.
      * right. left. split; [reflexivity |].
        split; [apply phase_Playing; auto |].
        destruct (Hp eq_refl) as (nd & Hnds & Hst & Href).
        exists nd. repeat split; try assumption.
        rewrite handle_when_playing by assumption.
        now rewrite (stop_started_source c nd Hnds Hst Href).
      * destruct (String.eqb_spec (summary result) "") as [Hs | Hs].
        -- left. rewrite handle_without_summary by assumption.
           repeat split. unfold phase. rewrite Eg, Ep. discriminate.
        -- right. right. left. split; [reflexivity |].
           split; [apply phase_Idle; auto |]. split; [exact Hs |].
           rewrite handle_when_idle by assumption. cbn.
           rewrite (Hng eq_refl). reflexivity.
  - destruct (requests c) as [| t rest] eqn:Hreq; [discriminate |].
    injection Hstep as <-.
    assert (Eg : isGeneratingAudio c = true).
    { destruct (isGeneratingAudio c); [reflexivity |].
      discriminate (Hng eq_refl). }
    destruct (Hg Eg) as [Ep [t' Ht']]. inversion Ht'; subst t' rest.
    destruct (Hnp Ep) as [Hnds Href].
    right. right. right.
    destruct (resume_cases (generateSpeech api) env (with_requests [] c))
      as [(b64 & bytes & Hsp & Hready & Hdec) | Hfail].
    + left. split; [apply phase_Generating; exact Eg |].
      exists api, env, b64, bytes.
      split; [reflexivity |]. split; [exact Hsp |]. split; [exact Hdec |].
      rewrite Hsp.
      now rewrite (resume_plays b64 bytes env (with_requests [] c)
                     Hready Hdec Hnds).
    + right. left. split; [apply phase_Generating; exact Eg |].
      pose proof (resume_fails_context (generateSpeech api) env
                    (with_requests [] c) Hnds Hfail) as Hctx.
      destruct (resume_fails (generateSpeech api) env (with_requests [] c)
                  Hnds Hfail) as (ctx' & con' & Heq).
      rewrite Heq in Hctx |- *. cbn in Hctx |- *. rewrite Href.
      exists api, env, ctx', con'. repeat split. exact Hctx.
  - destruct (find_node n (nodes c)) as [nd' |] eqn:Hfind; [| discriminate].
    destruct (started nd') eqn:Hst; [| discriminate].
    injection Hstep as <-.
    destruct (isPlaying c) eqn:Ep.
    + destruct (Hp eq_refl) as (nd & Hnds & _ & _).
      rewrite Hnds in Hfind. apply find_single_node in Hfind.
      destruct Hfind as [-> ->].
      assert (Eg : isGeneratingAudio c = false).
      { destruct (isGeneratingAudio c); [| reflexivity].
        destruct (Hg eq_refl) as [E _]. discriminate E. }
      do 5 right. split; [apply phase_Playing; auto |].
      exists nd. split; [reflexivity |]. split; [exact Hnds |].
      change (fst (onended (node_id nd) c)
              = mkCard false false (audioError c) (audioContextRef c) None []
                  (next_node c) [] (console c)).
      rewrite (ended_releases c nd Hnds). cbn. rewrite Eg, (Hng Eg).
      reflexivity.
    + destruct (Hnp eq_refl) as [Hnds _]. rewrite Hnds in Hfind.
      discriminate Hfind.
Qed.

(** The error message is there only on an idle card, and it is the one
    message of the handler. *)
Lemma error_shape (c : Card) :
  reachable result c ->
  audioError c = None
  \/ (phase c = Idle /\ audioError c = Some audioErrorMessage).
Proof.
  induction 1 as [| e c c' Hr IH Hstep]; [left; reflexivity |].
  destruct (step_cases e c c' Hr Hstep)
    as [(_ & -> & _)
       | [(_ & Hph & nd & _ & _ & _ & ->)
         | [(_ & _ & _ & ->)
           | [(Hph & api & env & b64 & bytes & _ & _ & _ & ->)
             | [(Hph & api & env & ctx & con & _ & _ & ->)
               | (Hph & nd & _ & _ & ->)]]]]].
  - exact IH.
  - destruct IH as [IH | [Hidle _]]; [left; exact IH | congruence].
  - left. reflexivity.
  - destruct IH as [IH | [Hidle _]]; [left; exact IH | congruence].
  - right. split; reflexivity.
  - destruct IH as [IH | [Hidle _]]; [left; exact IH | congruence].
Qed.

(** X7: an error message is shown only on an idle card, and it is always
    the one fixed message: while the card generates or plays no error is
    displayed. *)
Theorem error_only_when_idle (c : Card) :
  reachable result c ->
  (phase c <> Idle -> audioError c = None)
  /\ (forall m, audioError c = Some m ->
                phase c = Idle /\ m = audioErrorMessage).
Proof.
  intros Hr. destruct (error_shape c Hr) as [Hn | [Hidle Herr]].
  - split; [intros _; exact Hn |]. intros m Hm. congruence.
  - split; [intros Hne; contradiction |].
    intros m Hm. split; [exact Hidle | congruence].
Qed.



(** X9: the phase changes only from Idle to Generating (by a click), from
    Generating to Playing or Idle (when the speech call settles), and from
    Playing to Idle (when the source node ends); in particular never from
    Idle to Playing or from Playing to Generating. *)
Theorem phase_transitions (e : Event) (c c' : Card) :
  reachable result c -> step result e c = Some c' ->
  allowed (phase c) (phase c') = true
  /\ (phase c <> phase c' ->
      match e with
      | Click => phase c = Idle /\ phase c' = Generating
      | SpeechSettled _ _ => phase c = Generating
      | Ended _ => phase c = Playing /\ phase c' = Idle
      end).
Proof.
  intros Hr Hstep.
  destruct (step_cases e c c' Hr Hstep)
    as [(-> & -> & _)
       | [(-> & Hph & nd & _ & _ & _ & ->)
         | [(-> & Hph & _ & ->)
           | [(Hph & api & env & b64 & bytes & -> & _ & _ & ->)
             | [(Hph & api & env & ctx & con & -> & _ & ->)
               | (Hph & nd & -> & _ & ->)]]]]].
  - split; [destruct (phase c); reflexivity | intros H; contradiction].
  - change (phase (with_nodes [set_status Halted nd] c)) with (phase c).
    rewrite Hph. split; [reflexivity | intros H; contradiction].
  - rewrite Hph. split; [reflexivity | intros _; split; reflexivity].
  - rewrite Hph. split; [reflexivity | intros _; reflexivity].
  - rewrite Hph. split; [reflexivity | intros _; reflexivity].
  - rewrite Hph. split; [reflexivity | intros _; split; reflexivity].
Qed.

(** X11: a card whose result has no summary text never leaves its initial
    state: no event can make it request speech, play, or show an error. *)
Theorem empty_summary_card_stays_initial (c : Card) :
  summary result = ""%string -> reachable result c -> c = initial.
Proof.
  intros Hs. induction 1 as [| e c c' Hr IH Hstep]; [reflexivity |].
  subst c.
  destruct (step_cases e initial c' Hr Hstep)
    as [(_ & -> & _)
       | [(_ & Hph & _)
         | [(_ & _ & Hne & _)
           | [(Hph & _)
             | [(Hph & _)
               | (Hph & _)]]]]];
    try discriminate Hph; [reflexivity | contradiction].
Qed.

(** X12: in a playing card the one source node is connected to the
    destination and holds a buffer decoded at 24000 Hz with one channel;
    the ref points to it. *)
Theorem playing_node_shape (c : Card) :
  reachable result c -> phase c = Playing ->
  exists n st bytes,
    nodes c = [mkNode n st (Some (Audio.pcmToAudioBuffer bytes 24000 1)) true]
    /\ st <> Unstarted
    /\ sourceNodeRef c = Some n.
Proof.
  induction 1 as [| e c c' Hr IH Hstep]; [discriminate |].
  intros Hph'.
  destruct (step_cases e c c' Hr Hstep)
    as [(_ & -> & _)
       | [(_ & Hph & nd & Hnds & _ & Href & ->)
         | [(_ & _ & _ & ->)
           | [(Hph & api & env & b64 & bytes & _ & _ & _ & ->)
             | [(Hph & api & env & ctx & con & _ & _ & ->)
               | (Hph & nd & _ & _ & ->)]]]]];
    try discriminate Hph'.
  - apply IH. exact Hph'.
  - destruct (IH Hph) as (n & st & bytes & Hn & _ & Hr').
    rewrite Hn in Hnds. injection Hnds as <-.
    exists n, Halted, bytes. cbn. repeat split; [discriminate | exact Hr'].
  - exists (next_node c), Running, bytes. cbn.
    repeat split. discriminate.
Qed.

(** X13: pressing stop again before the source node has reported its end
    changes nothing more and does not throw. *)
Theorem stop_twice_is_stop_once (c : Card) :
  reachable result c -> phase c = Playing ->
  exists c1,
    handleAudioAction result c = (c1, inr tt)
    /\ step result Click c = Some c1
    /\ handleAudioAction result c1 = (c1, inr tt)
    /\ step result Click c1 = Some c1.
Proof.
  intros Hr Hph.
  destruct (stop_then_end result c Hr Hph)
    as (nd & Hnds & Href & Hact & Hclick & _).
  exists (with_nodes [set_status Halted nd] c).
  split; [exact Hact |]. split; [exact Hclick |].
  apply phase_Playing in Hph. destruct Hph as [Eg Ep].
  assert (H1 : handleAudioAction result (with_nodes [set_status Halted nd] c)
               = (with_nodes [set_status Halted nd] c, inr tt)).
  { rewrite handle_when_playing by exact Ep.
    rewrite (stop_started_source (with_nodes [set_status Halted nd] c)
               (set_status Halted nd) eq_refl eq_refl Href).
    reflexivity. }
  split; [exact H1 |].
  unfold step, disabled.
  change (isGeneratingAudio (with_nodes [set_status Halted nd] c))
    with (isGeneratingAudio c).
  rewrite Eg, H1. reflexivity.
Qed.

(** X14: the audio context is created lazily, only when a speech call
    settles, and once the ref holds one no event clears it. *)
Theorem audio_context_is_kept (e : Event) (c c' : Card) :
  reachable result c -> step result e c = Some c' ->
  (audioContextRef c <> None -> audioContextRef c' <> None)
  /\ (audioContextRef c = None -> audioContextRef c' <> None ->
      exists api env, e = SpeechSettled api env).
Proof.
  intros Hr Hstep.
  destruct (step_cases e c c' Hr Hstep)
    as [(_ & -> & _)
       | [(_ & Hph & nd & _ & _ & _ & ->)
         | [(_ & _ & _ & ->)
           | [(Hph & api & env & b64 & bytes & -> & _ & _ & ->)
             | [(Hph & api & env & ctx & con & -> & Hctx & ->)
               | (Hph & nd & _ & _ & ->)]]]]]; cbn.
  - split; [auto | intros H1 H2; contradiction].
  - split; [auto | intros H1 H2; contradiction].
  - split; [auto | intros H1 H2; contradiction].
  - split; [intros _; discriminate | intros _ _; eauto].
  - split; [exact Hctx | intros _ _; eauto].
  - split; [auto | intros H1 H2; contradiction].
Qed.

End CardExtras.

Section CardExtrasWitnesses.
Import Service Card Scenario.

Lemma error_only_when_idle_witness :
  reachable briefing playing /\ audioError playing = None.
Proof.
  split; [exact playing_reachable |].
  apply (error_only_when_idle briefing playing playing_reachable).
  discriminate.
Defined.


Lemma phase_transitions_witness :
  reachable briefing playing
  /\ allowed (phase playing) (phase initial) = true.
Proof.
  split; [exact playing_reachable |].
  apply (phase_transitions briefing (Ended 0) playing
           (mkCard false false None (Some running) None [] 1 [] [])
           playing_reachable eq_refl).
Defined.

Lemma empty_summary_card_stays_initial_witness :
  summary silent = ""%string
  /\ run silent [Click; Click] initial = Some initial.
Proof.
  split; [reflexivity |].
  assert (Hr : reachable silent initial) by apply reach_initial.
  assert (Hrun : exists c, run silent [Click; Click] initial = Some c)
    by (eexists; vm_compute; reflexivity).
  destruct Hrun as [c Hc]. rewrite Hc. f_equal.
  apply (empty_summary_card_stays_initial silent c eq_refl).
  apply (run_reachable silent [Click; Click] initial c Hr Hc).
Defined.

Lemma playing_node_shape_witness :
  exists n st bytes,
    nodes playing
    = [mkNode n st (Some (Audio.pcmToAudioBuffer bytes 24000 1)) true].
Proof.
  destruct (playing_node_shape briefing playing playing_reachable eq_refl)
    as (n & st & bytes & H & _).
  exists n, st, bytes. exact H.
Defined.

Lemma stop_twice_is_stop_once_witness :
  exists c1,
    step briefing Click playing = Some c1
    /\ step briefing Click c1 = Some c1.
Proof.
  destruct (stop_twice_is_stop_once briefing playing playing_reachable eq_refl)
    as (c1 & _ & H1 & _ & H2).
  exists c1. auto.
Defined.

Lemma audio_context_is_kept_witness :
  reachable briefing playing
  /\ audioContextRef (mkCard false false None (Some running) None [] 1 [] [])
     <> None.
Proof.
  split; [exact playing_reachable |].
  apply (audio_context_is_kept briefing (Ended 0) playing
           (mkCard false false None (Some running) None [] 1 [] [])
           playing_reachable eq_refl).
  discriminate.
Defined.

End CardExtrasWitnesses.

(* ===================================================================== *)
(** * Further properties of the service *)
(* ===================================================================== *)

Section ServiceExtras.
Import Service.

(** X15: [generateSpeech] resolves exactly when the first part of the
    first candidate carries non-empty inline data, and then to that data;
    it never resolves to an empty payload, and every failure, whatever its
    cause, is reported with the one message "Failed to generate speech.". *)
Theorem generateSpeech_outcomes
    (api : Settled GenerateContentResponse) :
  (forall d,
      generateSpeech api = Resolved d
      <-> d <> ""%string
          /\ exists r, api = Resolved r
                       /\ candidates r ?> first ?> content ?> parts ?> first
                            ?> inlineData ?> data
                          = Some d)
  /\ (forall m, generateSpeech api = Rejected m ->
                m = "Failed to generate speech."%string).
Proof.
  unfold generateSpeech. destruct api as [r | e].
  - destruct (candidates r ?> first ?> content ?> parts ?> first
                ?> inlineData ?> data) as [d0 |] eqn:E; cbn.
    + destruct (String.eqb_spec d0 "") as [Hd | Hd]; cbn.
      * split.
        -- intros d. split; [discriminate |].
           intros (Hne & r' & Hr & Hdata). injection Hr as <-.
           rewrite E in Hdata. congruence.
        -- intros m H. congruence.
      * split.
        -- intros d. split.
           ++ intros H. injection H as <-. split; [exact Hd |].
              exists r. split; [reflexivity | exact E].
           ++ intros (Hne & r' & Hr & Hdata). injection Hr as <-.
              rewrite E in Hdata. congruence.
        -- intros m H. discriminate H.
    + split.
      * intros d. split; [discriminate |].
        intros (Hne & r' & Hr & Hdata). injection Hr as <-.
        rewrite E in Hdata. discriminate Hdata.
      * intros m H. congruence.
  - split.
    + intros d. split; [discriminate |].
      intros (_ & r & Hr & _). discriminate Hr.
    + intros m H. congruence.
Qed.

Lemma generateSpeech_outcomes_witness :
  generateSpeech (Scenario.speech "AAD/fw==") = Resolved "AAD/fw=="%string.
Proof.
  apply (generateSpeech_outcomes (Scenario.speech "AAD/fw==")).
  split; [discriminate |].
  eexists. split; reflexivity.
Defined.

End ServiceExtras.

(* ===================================================================== *)
(** * Properties of the application state *)
(* ===================================================================== *)

Section AppFacts.
Import App.
Local Open Scope string_scope.

Lemma member_In (x : string) (l : list string) :
  member x l = true -> In x l.
Proof.
  unfold member. rewrite existsb_exists. intros (y & Hy & E).
  apply String.eqb_eq in E. now subst y.
Qed.

Lemma not_falsy (o : option string) :
  Service.falsy o = false -> exists v, o = Some v /\ v <> "".
Proof.
  destruct o as [v |]; cbn; [| discriminate].
  destruct (String.eqb_spec v ""); [discriminate |]. eauto.
Qed.

Lemma summary_enabled (s : State) :
  summaryDisabled s = false ->
  isLoading s = false
  /\ exists c k, selectedCountry s = Some c /\ selectedCategory s = Some k
                 /\ handleGetSummary s
                    = with_calls
                        (calls s ++ [SummaryCall c k (summaryPrompt c k)])
                        (with_error None (with_isLoading true s)).
Proof.
  unfold summaryDisabled. intros H.
  apply orb_false_elim in H. destruct H as [H Hk].
  apply orb_false_elim in H. destruct H as [Hl Hc].
  split; [exact Hl |].
  destruct (not_falsy _ Hc) as (c & Ec & _).
  destruct (not_falsy _ Hk) as (k & Ek & _).
  exists c, k. split; [exact Ec |]. split; [exact Ek |].
  unfold handleGetSummary. rewrite Hc, Hk. cbn. rewrite Ec, Ek. reflexivity.
Qed.

Lemma listed_filter (f : Result -> bool) (h : list Result) :
  Forall listed_label (map source h) ->
  Forall listed_label (map source (filter f h)).
Proof.
  induction h as [| x h IH]; cbn; intros H; [constructor |].
  inversion H; subst. destruct (f x); cbn; [constructor |]; auto.
Qed.

Lemma resumeCall_shape (call : Call)
    (api : Service.Settled Service.GenerateContentResponse)
    (iso : string) (now : Z) (s : State) :
  isLoading (resumeCall call api iso now (with_calls [] s)) = false
  /\ calls (resumeCall call api iso now (with_calls [] s)) = []
  /\ favorites (resumeCall call api iso now (with_calls [] s)) = favorites s
  /\ selectedCountry (resumeCall call api iso now (with_calls [] s))
     = selectedCountry s
  /\ selectedCategory (resumeCall call api iso now (with_calls [] s))
     = selectedCategory s
  /\ match Service.summarizeNewsWithGoogleSearch api with
     | Service.Resolved (text, chunks) =>
         history (resumeCall call api iso now (with_calls [] s))
         = mkResult iso (label_of call) text chunks now :: history s
         /\ error (resumeCall call api iso now (with_calls [] s)) = error s
         /\ activeView (resumeCall call api iso now (with_calls [] s))
            = match call with
              | DiscoveryCall _ _ => feed
              | SummaryCall _ _ _ => activeView s
              end
     | Service.Rejected _ =>
         history (resumeCall call api iso now (with_calls [] s)) = history s
         /\ error (resumeCall call api iso now (with_calls [] s))
            = Some (failure_of call)
         /\ activeView (resumeCall call api iso now (with_calls [] s))
            = activeView s
     end.
Proof.
  unfold resumeCall.
  destruct call, (Service.summarizeNewsWithGoogleSearch api) as [[t ch] | e];
    cbn; repeat split.
Qed.

Lemma invariant_initial_app : invariant initial.
Proof.
  unfold invariant, initial. cbn.
  repeat split; try discriminate; constructor.
Qed.

Lemma invariant_step_app (e : Event) (s s' : State) :
  invariant s -> step e s = Some s' -> invariant s'.
Proof.
  intros (Hl & Hnl & Hc & Hk & Hcalls & Hsrc) Hstep.
  destruct e; unfold step in Hstep.
  - destruct (member c countries) eqn:E; [| discriminate].
    injection Hstep as <-. unfold invariant. cbn -[In].
    repeat split; try assumption; try (apply Hl; assumption).
    intros c0 H0. injection H0 as <-. apply member_In. exact E.
  - destruct (member c categories) eqn:E; [| discriminate].
    injection Hstep as <-. unfold invariant. cbn -[In].
    repeat split; try assumption; try (apply Hl; assumption).
    intros c0 H0. injection H0 as <-. apply member_In. exact E.
  - injection Hstep as <-. unfold invariant. cbn -[In].
    repeat split; try assumption; apply Hl; assumption.
  - destruct (summaryDisabled s) eqn:E; [discriminate |].
    injection Hstep as <-.
    destruct (summary_enabled s E) as (El & c & k & Ec & Ek & ->).
    unfold invariant. cbn -[In]. rewrite (Hnl El). cbn -[In].
    split; [intros _; split; [reflexivity | eexists; reflexivity] |].
    split; [discriminate |].
    split; [exact Hc |]. split; [exact Hk |].
    split; [| exact Hsrc].
    constructor; [| constructor]. cbn -[In]. auto.
  - destruct (member category discoverCategories) eqn:E; [| discriminate].
    destruct (isLoading s) eqn:El; [discriminate |]. cbn in Hstep.
    injection Hstep as <-. unfold invariant, handleGetDiscovery. cbn -[In].
    rewrite (Hnl eq_refl). cbn -[In].
    split; [intros _; split; [reflexivity | eexists; reflexivity] |].
    split; [discriminate |].
    split; [exact Hc |]. split; [exact Hk |].
    split; [| exact Hsrc].
    constructor; [| constructor]. cbn -[In]. split; [| reflexivity].
    apply member_In. exact E.
  - destruct (calls s) as [| call rest] eqn:Ecalls; [discriminate |].
    injection Hstep as <-.
    assert (El : isLoading s = true).
    { destruct (isLoading s); [reflexivity |]. discriminate (Hnl eq_refl). }
    destruct (Hl El) as [_ [call' Hcall']].
    injection Hcall' as <- ->.
    pose proof (resumeCall_shape call api iso now s)
      as (R1 & R2 & R3 & R4 & R5 & R6).
    unfold invariant. rewrite R1, R2, R4, R5.
    split; [discriminate |]. split; [reflexivity |].
    split; [exact Hc |]. split; [exact Hk |].
    split; [constructor |].
    unfold sources.
    destruct (Service.summarizeNewsWithGoogleSearch api) as [[t ch] | m].
    + destruct R6 as (-> & _). cbn -[In]. constructor; [| exact Hsrc].
      inversion Hcalls as [| ? ? Hlisted _]; subst.
      destruct call as [c k p | d p]; cbn -[In] in Hlisted |- *.
      * left. exists c, k. tauto.
      * right. exists d. tauto.
    + destruct R6 as (-> & _). exact Hsrc.
  - injection Hstep as <-. unfold invariant. cbn -[In].
    repeat split; try assumption; apply Hl; assumption.
  - injection Hstep as <-. unfold invariant. cbn -[In].
    repeat split; try assumption; apply Hl; assumption.
  - injection Hstep as <-. unfold invariant. cbn -[In].
    repeat split; try assumption; try (apply Hl; assumption).
    apply listed_filter. exact Hsrc.
  - injection Hstep as <-. unfold invariant. cbn -[In].
    repeat split; try assumption; try (apply Hl; assumption).
    unfold sources in *. cbn -[In].
    eapply Permutation_Forall; [| exact Hsrc].
    apply Permutation_map, Permutation_sym, sort_desc_perm.
Qed.

Lemma reachable_invariant_app (s : State) : reachable s -> invariant s.
Proof.
  induction 1 as [| e s s' _ IH Hstep].
  - apply invariant_initial_app.
  - eapply invariant_step_app; eassumption.
Qed.

(** X16: at most one summarization call is outstanding at any time; the
    loading flag is set exactly while one is; and no error message is shown
    while loading. *)
Theorem one_call_at_most (s : State) :
  reachable s ->
  (List.length (calls s) <= 1)%nat
  /\ (isLoading s = true <-> exists call, calls s = [call])
  /\ (isLoading s = true -> error s = None).
Proof.
  intros Hr.
  destruct (reachable_invariant_app s Hr) as (Hl & Hnl & _).
  destruct (isLoading s) eqn:El.
  - destruct (Hl eq_refl) as [He [call Hcall]]. rewrite Hcall.
    split; [cbn; lia |]. split; [split; eauto | auto].
  - rewrite (Hnl eq_refl).
    split; [cbn; lia |]. split; [| discriminate].
    split; [discriminate | intros [call H]; discriminate H].
Qed.

(** X17: starting from the empty history, every result carries a label
    made from the lists of the page: a listed country and category joined
    by " - ", or "Keşfet - " and a listed topic. *)
Theorem history_labels_are_listed (s : State) :
  reachable s -> Forall listed_label (sources s).
Proof.
  intros Hr. apply (reachable_invariant_app s Hr).
Qed.

(** X18: when the outstanding call settles the handler resumes and the
    loading flag is cleared whatever the outcome.  On success exactly one
    result is put in front of the history, with the given id and time
    stamp, the text and citations of the service and the label of the call
    (and a discovery switches to the feed); on failure the history is
    unchanged and the error message of the call is shown.  Favorites and
    selection are untouched. *)
Theorem settle_outcome (s : State)
    (api : Service.Settled Service.GenerateContentResponse)
    (iso : string) (now : Z) :
  reachable s -> isLoading s = true ->
  exists call s',
    calls s = [call]
    /\ step (Settled api iso now) s = Some s'
    /\ isLoading s' = false /\ calls s' = []
    /\ favorites s' = favorites s
    /\ selectedCountry s' = selectedCountry s
    /\ selectedCategory s' = selectedCategory s
    /\ match Service.summarizeNewsWithGoogleSearch api with
       | Service.Resolved (text, chunks) =>
           history s'
           = mkResult iso (label_of call) text chunks now :: history s
           /\ error s' = None
           /\ activeView s' = match call with
                              | DiscoveryCall _ _ => feed
                              | SummaryCall _ _ _ => activeView s
                              end
       | Service.Rejected _ =>
           history s' = history s
           /\ error s' = Some (failure_of call)
           /\ activeView s' = activeView s
       end.
Proof.
  intros Hr El.
  destruct (reachable_invariant_app s Hr) as (Hl & _).
  destruct (Hl El) as [He [call Hcall]].
  pose proof (resumeCall_shape call api iso now s)
    as (R1 & R2 & R3 & R4 & R5 & R6).
  exists call, (resumeCall call api iso now (with_calls [] s)).
  split; [exact Hcall |].
  split; [unfold step; rewrite Hcall; reflexivity |].
  split; [exact R1 |]. split; [exact R2 |]. split; [exact R3 |].
  split; [exact R4 |]. split; [exact R5 |].
  destruct (Service.summarizeNewsWithGoogleSearch api) as [[t ch] | m].
  - destruct R6 as (H1 & H2 & H3). rewrite H2. auto.
  - exact R6.
Qed.

(** X19: the label of a result is the selection at the moment of the
    click: a country or category chosen while the call is outstanding
    changes the selection but not the label of the result that arrives. *)
Theorem label_is_captured_at_click (s : State) (c k c' k' : string)
    (r : Service.GenerateContentResponse) (iso : string) (now : Z) :
  reachable s -> summaryDisabled s = false ->
  selectedCountry s = Some c -> selectedCategory s = Some k ->
  In c' countries -> In k' categories ->
  exists s',
    run [ClickGetSummary; SelectCountry c'; SelectCategory k';
         Settled (Service.Resolved r) iso now] s = Some s'
    /\ sources s' = summaryLabel c k :: sources s
    /\ selectedCountry s' = Some c'
    /\ selectedCategory s' = Some k'
    /\ isLoading s' = false.
Proof.
  intros Hr Hen Hc Hk Hc' Hk'.
  destruct (reachable_invariant_app s Hr) as (_ & Hnl & _).
  destruct (summary_enabled s Hen) as (El & c0 & k0 & Ec & Ek & Hh).
  rewrite Hc in Ec. injection Ec as <-. rewrite Hk in Ek. injection Ek as <-.
  assert (Mc : member c' countries = true).
  { unfold member. apply existsb_exists. exists c'.
    split; [exact Hc' | apply String.eqb_refl]. }
  assert (Mk : member k' categories = true).
  { unfold member. apply existsb_exists. exists k'.
    split; [exact Hk' | apply String.eqb_refl]. }
  eexists. split.
  - cbn [run]. unfold step at 1. rewrite Hen, Hh.
    unfold step at 1. rewrite Mc.
    unfold step at 1. rewrite Mk.
    unfold step at 1. cbn [calls with_calls with_selectedCountry
                            with_selectedCategory with_error with_isLoading].
    rewrite (Hnl El). cbn [app]. reflexivity.
  - cbn. repeat split.
Qed.

(** X20: deleting a result removes every result of that id and nothing
    else, leaves the favorites alone, and keeps a sorted history sorted:
    the render that follows finds nothing to reorder. *)
Theorem delete_keeps_order (i : string) (s : State) :
  (forall x, In x (history (handleDeleteResult i s))
             <-> In x (history s) /\ id x <> i)
  /\ favorites (handleDeleteResult i s) = favorites s
  /\ (newest_first timestamp (history s) ->
      newest_first timestamp (history (handleDeleteResult i s)))
  /\ history (render (handleDeleteResult i (render s)))
     = history (handleDeleteResult i (render s)).
Proof.
  assert (Hsorted : forall h : list Result,
             newest_first timestamp h ->
             newest_first timestamp
               (filter (fun item => negb (String.eqb (id item) i)) h)).
  { unfold newest_first. induction h as [| x h IH]; cbn; intros H;
      [constructor |].
    inversion H as [| ? ? Hs Hall]; subst.
    destruct (negb (String.eqb (id x) i)); [| auto].
    constructor; [auto |].
    apply Forall_forall. intros y Hy. apply filter_In in Hy.
    rewrite Forall_forall in Hall. apply Hall. tauto. }
  split; [| split; [| split]].
  - intros x. unfold handleDeleteResult. cbn. rewrite filter_In.
    split; intros [Hin Hx]; (split; [exact Hin |]).
    + intros E. rewrite E, String.eqb_refl in Hx. discriminate Hx.
    + destruct (String.eqb_spec (id x) i); [contradiction | reflexivity].
  - reflexivity.
  - apply Hsorted.
  - unfold render, handleDeleteResult, with_favorites, with_history.
    cbn -[sort_desc Favorites.sortFavorites].
    apply sort_desc_of_sorted. apply Hsorted. apply sort_desc_sorted.
Qed.

End AppFacts.

Section AppWitnesses.
Import App Scenario.
Local Open Scope string_scope.

Lemma run_reachable_app (es : list Event) (s s' : State) :
  reachable s -> run es s = Some s' -> reachable s'.
Proof.
  revert s. induction es as [| e es IH]; intros s Hs Hrun; cbn in Hrun.
  - injection Hrun as <-. exact Hs.
  - destruct (step e s) as [s1 |] eqn:Hstep; [| discriminate].
    apply (IH s1); [| exact Hrun].
    eapply reach_step; eassumption.
Qed.

Lemma chosen_reachable : reachable chosen.
Proof.
  apply (run_reachable_app [SelectCountry "Dünya"; SelectCategory "Spor"]
           initial chosen reach_initial).
  vm_compute. reflexivity.
Qed.

Lemma loading_reachable : reachable loading.
Proof.
  apply (run_reachable_app [ClickGetSummary] chosen loading chosen_reachable).
  vm_compute. reflexivity.
Qed.

Lemma one_call_at_most_witness :
  reachable loading /\ (List.length (calls loading) <= 1)%nat.
Proof.
  split; [exact loading_reachable |].
  apply (one_call_at_most loading loading_reachable).
Defined.

Lemma history_labels_are_listed_witness :
  exists s',
    step (Settled (Service.Resolved bare_summary) "2024-05-01T10:00:00.000Z"
            1714557600000) loading = Some s'
    /\ Forall listed_label (sources s').
Proof.
  eexists. split; [vm_compute; reflexivity |].
  apply history_labels_are_listed.
  apply (reach_step
           (Settled (Service.Resolved bare_summary)
              "2024-05-01T10:00:00.000Z" 1714557600000)
           loading _ loading_reachable).
  vm_compute. reflexivity.
Defined.

Lemma settle_outcome_witness :
  exists s',
    step (Settled (Service.Rejected "503") "2024-05-01T10:00:00.000Z"
            1714557600000) loading = Some s'
    /\ isLoading s' = false /\ history s' = []
    /\ error s' = Some summaryError.
Proof.
  destruct (settle_outcome loading (Service.Rejected "503")
              "2024-05-01T10:00:00.000Z" 1714557600000
              loading_reachable eq_refl)
    as (call & s' & Hcall & Hstep & Hl & _ & _ & _ & _ & Hh & He & _).
  injection Hcall as <-.
  exists s'. auto.
Defined.

Lemma label_is_captured_at_click_witness :
  exists s',
    run [ClickGetSummary; SelectCountry "Japonya"; SelectCategory "Bilim";
         Settled (Service.Resolved bare_summary) "2024-05-01T10:00:00.000Z"
           1714557600000] chosen = Some s'
    /\ sources s' = ["Dünya - Spor"]
    /\ selectedCountry s' = Some "Japonya".
Proof.
  destruct (label_is_captured_at_click chosen "Dünya" "Spor" "Japonya" "Bilim"
              bare_summary "2024-05-01T10:00:00.000Z" 1714557600000
              chosen_reachable eq_refl eq_refl eq_refl)
    as (s' & Hrun & Hsrc & Hc & _).
  - cbn. tauto.
  - cbn. tauto.
  - exists s'. auto.
Defined.

Lemma delete_keeps_order_witness :
  newest_first timestamp (history chosen)
  /\ newest_first timestamp (history (handleDeleteResult "x" chosen)).
Proof.
  assert (H : newest_first timestamp (history chosen)) by constructor.
  split; [exact H |].
  apply (delete_keeps_order "x" chosen). exact H.
Defined.

End AppWitnesses.

(* ===================================================================== *)
(** * Properties of the stored settings *)
(* ===================================================================== *)

Section SettingsFacts.
Import Settings.
Local Open Scope string_scope.

Lemma or_else_some (v d : string) : v <> "" -> or_else (Some v) d = v.
Proof.
  intros Hv. unfold or_else, Service.falsy.
  destruct (String.eqb_spec v ""); [contradiction | reflexivity].
Qed.

Lemma or_else_nonempty (o : option string) (d : string) :
  d <> "" -> or_else o d <> "".
Proof.
  intros Hd. unfold or_else, Service.falsy.
  destruct o as [v |]; [| exact Hd].
  destruct (String.eqb_spec v ""); [exact Hd | assumption].
Qed.

(** X21: settings that were saved are the settings that load: for a
    non-empty theme and a non-empty font size other than "small", loading
    after saving gives the same settings back and leaves the storage as
    saved. *)
Theorem settings_round_trip (p : Prefs) (prefersDark : bool) (st : Storage) :
  backgroundTheme p <> "" -> fontSize p <> "" -> fontSize p <> "small" ->
  fst (loadSettings prefersDark (saveSettings p st)) = p
  /\ forall k, snd (loadSettings prefersDark (saveSettings p st)) k
               = saveSettings p st k.
Proof.
  intros Ht Hf Hs. destruct p as [t f]. cbn in Ht, Hf, Hs.
  unfold loadSettings, saveSettings, getItem, setItem. cbn.
  destruct (String.eqb_spec f "small") as [E | E]; [contradiction |].
  cbn. rewrite (or_else_some t _ Ht), (or_else_some f _ Hf).
  split; [reflexivity | intros k; reflexivity].
Qed.

Lemma settings_round_trip_witness :
  fst (loadSettings true (saveSettings (mkPrefs "sepia" "xlarge") emptyStorage))
  = mkPrefs "sepia" "xlarge".
Proof.
  apply (settings_round_trip (mkPrefs "sepia" "xlarge") true emptyStorage);
    discriminate.
Defined.

(** X22: loading never yields an empty theme, nor an empty or "small" font
    size: a missing or empty theme falls back to the colour scheme of the
    system, a missing or empty font size to "medium", and a stored "small"
    is replaced by "medium" in the state and in the storage.  No other key
    is written, and any other stored value is taken as it is, listed or
    not. *)
Theorem settings_load (prefersDark : bool) (st : Storage) :
  backgroundTheme (fst (loadSettings prefersDark st)) <> ""
  /\ fontSize (fst (loadSettings prefersDark st)) <> ""
  /\ fontSize (fst (loadSettings prefersDark st)) <> "small"
  /\ (Service.falsy (getItem "backgroundTheme" st) = true ->
      backgroundTheme (fst (loadSettings prefersDark st))
      = if prefersDark then "dark" else "light")
  /\ (Service.falsy (getItem "fontSize" st) = true ->
      fontSize (fst (loadSettings prefersDark st)) = "medium")
  /\ (getItem "fontSize" st = Some "small" ->
      fontSize (fst (loadSettings prefersDark st)) = "medium"
      /\ getItem "fontSize" (snd (loadSettings prefersDark st))
         = Some "medium")
  /\ (forall v, v <> "" -> v <> "small" -> getItem "fontSize" st = Some v ->
      fontSize (fst (loadSettings prefersDark st)) = v)
  /\ (forall v, v <> "" -> getItem "backgroundTheme" st = Some v ->
      backgroundTheme (fst (loadSettings prefersDark st)) = v)
  /\ (forall k, k <> "fontSize" ->
      getItem k (snd (loadSettings prefersDark st)) = getItem k st)
  /\ (getItem "fontSize" st <> Some "small" ->
      snd (loadSettings prefersDark st) = st).
Proof.
  assert (Htheme : backgroundTheme (fst (loadSettings prefersDark st))
                   = or_else (st "backgroundTheme")
                       (if prefersDark then "dark" else "light")).
  { unfold loadSettings, getItem.
    destruct (st "fontSize") as [f |]; [| reflexivity].
    destruct (String.eqb f "small"); reflexivity. }
  assert (Hfont : fontSize (fst (loadSettings prefersDark st))
                  = match st "fontSize" with
                    | Some f => if String.eqb f "small" then "medium"
                                else or_else (Some f) "medium"
                    | None => "medium"
                    end).
  { unfold loadSettings, getItem.
    destruct (st "fontSize") as [f |]; [| reflexivity].
    destruct (String.eqb f "small"); reflexivity. }
  assert (Hst : snd (loadSettings prefersDark st)
                = match st "fontSize" with
                  | Some f => if String.eqb f "small"
                              then setItem "fontSize" "medium" st else st
                  | None => st
                  end).
  { unfold loadSettings, getItem.
    destruct (st "fontSize") as [f |]; [| reflexivity].
    destruct (String.eqb f "small"); reflexivity. }
  rewrite Htheme, Hfont, Hst. unfold getItem.
  split.
  { apply or_else_nonempty. destruct prefersDark; discriminate. }
  split.
  { destruct (st "fontSize") as [f |]; [| discriminate].
    destruct (String.eqb f "small"); [discriminate |].
    apply or_else_nonempty. discriminate. }
  split.
  { destruct (st "fontSize") as [f |]; [| discriminate].
    destruct (String.eqb_spec f "small") as [E | E]; [discriminate |].
    unfold or_else, Service.falsy.
    destruct (String.eqb_spec f ""); [discriminate | exact E]. }
  split.
  { intros H. unfold or_else. rewrite H. reflexivity. }
  split.
  { intros H. destruct (st "fontSize") as [f |]; [| reflexivity].
    destruct (String.eqb f "small"); [reflexivity |].
    unfold or_else. rewrite H. reflexivity. }
  split.
  { intros H. rewrite H. cbn. split; reflexivity. }
  split.
  { intros v Hv Hs H. rewrite H.
    destruct (String.eqb_spec v "small"); [contradiction |].
    apply or_else_some. exact Hv. }
  split.
  { intros v Hv H. rewrite H. apply or_else_some. exact Hv. }
  split.
  { intros k Hk. destruct (st "fontSize") as [f |]; [| reflexivity].
    destruct (String.eqb f "small"); [| reflexivity].
    unfold setItem.
    destruct (String.eqb_spec k "fontSize"); [contradiction | reflexivity]. }
  intros H. destruct (st "fontSize") as [f |]; [| reflexivity].
  destruct (String.eqb_spec f "small") as [E | E]; [| reflexivity].
  subst f. contradiction H. reflexivity.
Qed.

Lemma settings_load_witness :
  getItem "fontSize" (setItem "fontSize" "small" emptyStorage) = Some "small"
  /\ fst (loadSettings true (setItem "fontSize" "small" emptyStorage))
     = mkPrefs "dark" "medium".
Proof.
  split; [reflexivity |].
  destruct (settings_load true (setItem "fontSize" "small" emptyStorage))
    as (_ & _ & _ & Ht & _ & Hs & _).
  destruct (Hs eq_refl) as [Hf _].
  specialize (Ht eq_refl).
  destruct (loadSettings true (setItem "fontSize" "small" emptyStorage))
    as [[t f] st']. cbn in *. congruence.
Defined.

End SettingsFacts.

(* ===================================================================== *)
(** * The handler, await by await: properties *)
(* ===================================================================== *)

Section AsyncFacts.
Import Service Card Async.

Variable result : Result.

Lemma playBuffer_plays (buf : Audio.AudioBuffer) (c : Card) :
  nodes c = [] ->
  playBuffer buf c
  = (mkCard (isGeneratingAudio c) true (audioError c) (audioContextRef c)
       (Some (next_node c)) [mkNode (next_node c) Running (Some buf) true]
       (S (next_node c)) (requests c) (console c),
     inr tt).
Proof.
  intros Hnodes.
  destruct c as [g p err ctx ref nds nxt reqs con]. cbn in Hnodes. subst nds.
  unfold playBuffer, bind, createBufferSource, setBuffer, connect, modify,
    start, setIsPlaying.
  cbn. rewrite ?Nat.eqb_refl. cbn. rewrite ?Nat.eqb_refl. reflexivity.
Qed.

(** A stretch that does not reach the end of the body either suspends,
    having touched at most the audio context, or fails into [catch] and
    [finally]. *)
Lemma afterSpeech_cases (speech : Settled string) (env : AudioEnv)
    (c : Card) :
  (exists w ctx,
      stretch (afterSpeech speech env) c
      = mkSession (with_audioContextRef ctx c) (Some w)
      /\ awaitsLeft (mkSession (with_requests [] c) (Some w)) <= 2)%nat
  \/ (exists ctx con,
        stretch (afterSpeech speech env) c
        = mkSession
            (mkCard false false (Some audioErrorMessage) ctx (sourceNodeRef c)
               (nodes c) (next_node c) (requests c) con)
            None).
Proof.
  destruct c as [g p err ctx ref nds nxt reqs con].
  unfold stretch, afterSpeech, toDecode, bind, await, ret, throw,
    ensureAudioContext, decodeBytes, gets, modify, catchBlock, finallyBlock,
    consoleError, setAudioError, setIsPlaying, setIsGeneratingAudio.
  destruct speech as [b64 | e]; cbn.
  - destruct ctx as [[|] |]; cbn.
    + left. eexists. exists (Some suspended). split; [reflexivity | cbn; lia].
    + destruct (Audio.decode b64); cbn.
      * left. eexists. exists (Some running). split; [reflexivity | cbn; lia].
      * right. eexists. eexists. reflexivity.
    + destruct (contextAvailable env); cbn.
      * destruct (initialState env); cbn.
        -- left. eexists. exists (Some suspended).
           split; [reflexivity | cbn; lia].
        -- destruct (Audio.decode b64); cbn.
           ++ left. eexists. exists (Some running).
              split; [reflexivity | cbn; lia].
           ++ right. eexists. eexists. reflexivity.
      * right. eexists. eexists. reflexivity.
  - right. eexists. eexists. reflexivity.
Qed.

Lemma afterResume_cases (ok : bool) (b64 : string) (c : Card) :
  (exists bytes,
      stretch (afterResume ok b64) c
      = mkSession (with_audioContextRef (Some running) c)
          (Some (AtDecode bytes)))
  \/ (exists ctx con,
        stretch (afterResume ok b64) c
        = mkSession
            (mkCard false false (Some audioErrorMessage) ctx (sourceNodeRef c)
               (nodes c) (next_node c) (requests c) con)
            None).
Proof.
  destruct c as [g p err ctx ref nds nxt reqs con].
  unfold stretch, afterResume, toDecode, bind, ret, throw, decodeBytes,
    modify, catchBlock, finallyBlock, consoleError, setAudioError,
    setIsPlaying, setIsGeneratingAudio.
  destruct ok; cbn.
  - destruct (Audio.decode b64); cbn.
    + left. eexists. reflexivity.
    + right. eexists. eexists. reflexivity.
  - right. eexists. eexists. reflexivity.
Qed.

Lemma afterDecode_plays (bytes : list byte) (c : Card) :
  nodes c = [] ->
  stretch (afterDecode true bytes) c
  = mkSession
      (mkCard false true (audioError c) (audioContextRef c)
         (Some (next_node c))
         [mkNode (next_node c) Running
            (Some (Audio.pcmToAudioBuffer bytes 24000 1)) true]
         (S (next_node c)) (requests c) (console c))
      None.
Proof.
  intros Hnodes. unfold stretch, afterDecode, bind.
  rewrite (playBuffer_plays _ c Hnodes). reflexivity.
Qed.

Lemma afterDecode_fails (bytes : list byte) (c : Card) :
  stretch (afterDecode false bytes) c
  = mkSession
      (mkCard false false (Some audioErrorMessage) (audioContextRef c)
         (sourceNodeRef c) (nodes c) (next_node c) (requests c)
         (console c ++ ["EncodingError"%string]))
      None.
Proof. destruct c. reflexivity. Qed.

Lemma invariant_fresh : Async.invariant fresh.
Proof.
  unfold Async.invariant, fresh. cbn.
  split; [discriminate |].
  split; [intros _; split; reflexivity |].
  split; [intros _; split; reflexivity | discriminate].
Qed.

(** Each signal on a session that satisfies the invariant: what it
    leaves. *)
Lemma advance_cases (sig : Signal) (s s' : Session) :
  Async.invariant s -> advance result sig s = Some s' ->
  Async.invariant s'
  /\ (phase (card s) = Generating ->
      (sig = Press /\ s' = s)
      \/ (settles sig s
          /\ (finished s'
              \/ (phase (card s') = Generating
                  /\ (awaitsLeft s' < awaitsLeft s)%nat)))).
Proof.
  intros (Hg & Hng & Hnp & Hp) Hadv.
  destruct s as [c w]. cbn [card waiting] in *.
  destruct sig as [| api env | ok | ok | n]; unfold advance in Hadv;
    cbn [card waiting] in Hadv.
  - (* Press *)
    unfold disabled in Hadv.
    destruct (isGeneratingAudio c) eqn:Eg; injection Hadv as <-.
    + split; [unfold Async.invariant; cbn [card waiting]; rewrite Eg; tauto |].
      intros _. left. split; reflexivity.
    + split; [| intros Hph; apply phase_Generating in Hph; congruence].
      destruct (Hng eq_refl) as [Hreq Hw]. subst w.
      destruct (isPlaying c) eqn:Ep.
      * destruct (Hp eq_refl) as (Herr & nd & Hnds & Hst & Href).
        rewrite handle_when_playing by assumption.
        rewrite (stop_started_source c nd Hnds Hst Href).
        unfold Async.invariant. cbn. rewrite Eg, Ep.
        split; [discriminate |].
        split; [intros _; split; [exact Hreq | reflexivity] |].
        split; [discriminate |].
        intros _. split; [exact Herr |].
        exists (set_status Halted nd). auto.
      * destruct (String.eqb_spec (summary result) "") as [Hs | Hs].
        -- rewrite handle_without_summary by assumption.
           unfold Async.invariant. cbn [card waiting fst]. rewrite Eg, Ep.
           tauto.
        -- rewrite handle_when_idle by assumption.
           unfold Async.invariant. cbn. rewrite Ep, Hreq. cbn.
           split; [intros _; split; [reflexivity |]; split; [reflexivity |];
                   left; split; [eexists; reflexivity | reflexivity] |].
           split; [discriminate |].
           split; [intros _; apply Hnp; reflexivity | discriminate].
  - (* Speech *)
    destruct (requests c) as [| t rest] eqn:Hreq; [discriminate |].
    injection Hadv as <-.
    assert (Eg : isGeneratingAudio c = true).
    { destruct (isGeneratingAudio c); [reflexivity |].
      destruct (Hng eq_refl) as [H _]. discriminate H. }
    destruct (Hg Eg) as (Ep & Herr & [[[t' Ht'] Hw] | [H _]]);
      [| discriminate H].
    injection Ht' as <- ->. subst w.
    destruct (Hnp Ep) as [Hnds Href].
    destruct (afterSpeech_cases (generateSpeech api) env (with_requests [] c))
      as [(w' & ctx & -> & Hrank) | (ctx & con & ->)].
    + split.
      * unfold Async.invariant. cbn. rewrite Eg, Ep.
        split; [intros _; split; [reflexivity |]; split; [exact Herr |];
                right; split; [reflexivity | eexists; reflexivity] |].
        split; [discriminate |].
        split; [intros _; split; assumption | discriminate].
      * intros _. right. split; [cbn; rewrite Hreq; discriminate |].
        right. split; [apply phase_Generating; cbn; exact Eg |].
        unfold awaitsLeft in *. cbn in *. rewrite Hreq. lia.
    + cbn [nodes sourceNodeRef with_requests requests next_node].
      rewrite Hnds, Href. split.
      * unfold Async.invariant. cbn.
        split; [discriminate |].
        split; [intros _; split; reflexivity |].
        split; [intros _; split; reflexivity | discriminate].
      * intros _. right. split; [cbn; rewrite Hreq; discriminate |].
        left. unfold finished. cbn. repeat split. right. split; reflexivity.
  - (* Resumed *)
    destruct w as [[b64 | bytes] |]; try discriminate.
    injection Hadv as <-.
    assert (Eg : isGeneratingAudio c = true).
    { destruct (isGeneratingAudio c); [reflexivity |].
      destruct (Hng eq_refl) as [_ H]. discriminate H. }
    destruct (Hg Eg) as (Ep & Herr & [[_ Hw] | [Hreq _]]);
      [discriminate Hw |].
    destruct (Hnp Ep) as [Hnds Href].
    destruct (afterResume_cases ok b64 c)
      as [(bytes & ->) | (ctx & con & ->)].
    + split.
      * unfold Async.invariant. cbn. rewrite Eg, Ep, Hreq.
        split; [intros _; split; [reflexivity |]; split; [exact Herr |];
                right; split; [reflexivity | eexists; reflexivity] |].
        split; [discriminate |].
        split; [intros _; split; assumption | discriminate].
      * intros _. right. split; [cbn; eexists; reflexivity |].
        right. split; [apply phase_Generating; cbn; exact Eg |].
        unfold awaitsLeft. cbn. rewrite Hreq. lia.
    + rewrite Hnds, Href, Hreq. split.
      * unfold Async.invariant. cbn.
        split; [discriminate |].
        split; [intros _; split; reflexivity |].
        split; [intros _; split; reflexivity | discriminate].
      * intros _. right. split; [cbn; eexists; reflexivity |].
        left. unfold finished. cbn. repeat split. right. split; reflexivity.
  - (* Decoded *)
    destruct w as [[b64 | bytes] |]; try discriminate.
    injection Hadv as <-.
    assert (Eg : isGeneratingAudio c = true).
    { destruct (isGeneratingAudio c); [reflexivity |].
      destruct (Hng eq_refl) as [_ H]. discriminate H. }
    destruct (Hg Eg) as (Ep & Herr & [[_ Hw] | [Hreq _]]);
      [discriminate Hw |].
    destruct (Hnp Ep) as [Hnds Href].
    destruct ok.
    + rewrite (afterDecode_plays bytes c Hnds). rewrite Hreq, Herr. split.
      * unfold Async.invariant. cbn.
        split; [discriminate |].
        split; [intros _; split; reflexivity |].
        split; [discriminate |].
        intros _. split; [reflexivity |]. eexists. repeat split.
      * intros _. right. split; [cbn; eexists; reflexivity |].
        left. unfold finished. cbn. repeat split. left. split; reflexivity.
    + rewrite (afterDecode_fails bytes c). rewrite Hnds, Href, Hreq. split.
      * unfold Async.invariant. cbn.
        split; [discriminate |].
        split; [intros _; split; reflexivity |].
        split; [intros _; split; reflexivity | discriminate].
      * intros _. right. split; [cbn; eexists; reflexivity |].
        left. unfold finished. cbn. repeat split. right. split; reflexivity.
  - (* NodeEnded *)
    destruct (find_node n (nodes c)) as [nd' |] eqn:Hfind; [| discriminate].
    destruct (started nd') eqn:Hst; [| discriminate].
    injection Hadv as <-.
    destruct (isPlaying c) eqn:Ep.
    + destruct (Hp eq_refl) as (Herr & nd & Hnds & _ & _).
      rewrite Hnds in Hfind. apply find_single_node in Hfind.
      destruct Hfind as [-> ->].
      assert (Eg : isGeneratingAudio c = false).
      { destruct (isGeneratingAudio c); [| reflexivity].
        destruct (Hg eq_refl) as [E _]. discriminate E. }
      split; [| intros Hph; apply phase_Generating in Hph; congruence].
      change (Async.invariant (mkSession (fst (onended (node_id nd) c)) w)).
      rewrite (ended_releases c nd Hnds).
      unfold Async.invariant. cbn. rewrite Eg.
      split; [discriminate |].
      split; [intros _; apply Hng; exact Eg |].
      split; [intros _; split; reflexivity | discriminate].
    + destruct (Hnp eq_refl) as [Hnds _]. rewrite Hnds in Hfind.
      discriminate Hfind.
Qed.

Lemma attainable_invariant (s : Session) :
  attainable result s -> Async.invariant s.
Proof.
  induction 1 as [| sig s s' _ IH Hadv].
  - apply invariant_fresh.
  - apply (advance_cases sig s s' IH Hadv).
Qed.

Lemma advanceAll_attainable (sigs : list Signal) (s s' : Session) :
  attainable result s -> advanceAll result sigs s = Some s' ->
  attainable result s'.
Proof.
  revert s. induction sigs as [| sig sigs IH]; intros s Hs Hrun; cbn in Hrun.
  - injection Hrun as <-. exact Hs.
  - destruct (advance result sig s) as [s1 |] eqn:Hadv; [| discriminate].
    apply (IH s1); [| exact Hrun].
    eapply attain_advance; eassumption.
Qed.

(** The one-step handler of [Card.resumeAudioAction] is this model with
    every promise settled: the speech call as given, [resume()] as the
    environment says, [decodeAudioData] with the buffer. *)
Lemma settleAll_collapse (speech : Settled string) (env : AudioEnv)
    (c : Card) :
  settleAll speech env c = fst (resumeAudioAction speech env c).
Proof.
  destruct c as [g p err ctx ref nds nxt reqs con].
  unfold settleAll, stretch, afterSpeech, afterResume, afterDecode, toDecode,
    playBuffer, catchBlock, finallyBlock, resumeAudioAction,
    try_catch_finally, bind, await, ret, throw, ensureAudioContext,
    resumeIfSuspended, decodeBytes, gets, modify, consoleError,
    setAudioError, setIsPlaying, setIsGeneratingAudio.
  destruct speech as [b64 | e]; [| reflexivity].
  destruct ctx as [[|] |], env as [[|] [|] [|]]; cbn;
    destruct (Audio.decode b64); cbn; try reflexivity.
  all: unfold createBufferSource, setBuffer, connect, start; cbn;
    match goal with
    | |- context [find ?f ?l] => destruct (find f l) as [nd |]
    end; cbn; try reflexivity;
    destruct (node_status nd); reflexivity.
Qed.

(** X10: while the card generates, its handler call waits for exactly one
    promise: the speech call, then [resume()] if the context is suspended,
    then [decodeAudioData]; each may resolve or reject.  A press of the
    (disabled) button changes
    nothing, and the only signals that change the session are the ones
    that settle the awaited promise: each either finishes the call, with
    [finally] run ([isGeneratingAudio] false, nothing outstanding, and the
    card playing without error or idle with the error message), or leaves
    the card generating with fewer awaits to go, at most three in all.  A
    promise that never settles leaves the card generating. *)
Theorem generation_ends_when_awaits_settle (s : Session) :
  attainable result s -> phase (card s) = Generating ->
  (1 <= awaitsLeft s <= 3)%nat
  /\ advance result Press s = Some s
  /\ (forall sig s',
        advance result sig s = Some s' ->
        (sig = Press /\ s' = s)
        \/ (settles sig s
            /\ (finished s'
                \/ (phase (card s') = Generating
                    /\ (awaitsLeft s' < awaitsLeft s)%nat))))
  /\ (requests (card s) <> [] ->
      forall api env, exists s', advance result (Speech api env) s = Some s')
  /\ (forall b, waiting s = Some (AtResume b) ->
      forall ok, exists s', advance result (Resumed ok) s = Some s')
  /\ (forall bytes, waiting s = Some (AtDecode bytes) ->
      forall ok, exists s', advance result (Decoded ok) s = Some s').
Proof.
  intros Hat Hph. pose proof (attainable_invariant s Hat) as Hinv.
  pose proof Hph as Eg. apply phase_Generating in Eg.
  split; [| split; [| split; [| split; [| split]]]].
  - destruct Hinv as (Hg & _).
    destruct (Hg Eg) as (_ & _ & [[[t Ht] Hw] | [Hreq [w Hw]]]);
      unfold awaitsLeft; rewrite ?Ht, ?Hreq, ?Hw; [lia |].
    destruct w; lia.
  - unfold advance, disabled. rewrite Eg. reflexivity.
  - intros sig s' Hadv.
    apply (advance_cases sig s s' Hinv Hadv). exact Hph.
  - intros Hreq api env. unfold advance.
    destruct (requests (card s)); [contradiction | eexists; reflexivity].
  - intros b Hw ok. unfold advance. rewrite Hw. eexists; reflexivity.
  - intros bytes Hw ok. unfold advance. rewrite Hw. eexists; reflexivity.
Qed.

End AsyncFacts.

Section AsyncScenarios.
Import Service Card Async Scenario.

(** With a suspended context the card is still generating after the
    speech response: the call waits at [resume()]. *)
Example waits_at_resume :
  advanceAll briefing [Press; Speech (speech "AAD/fw==") browser] fresh
  = Some (mkSession
            (mkCard true false None (Some suspended) None [] 0 [] [])
            (Some (AtResume "AAD/fw=="))).
Proof. vm_compute. reflexivity. Qed.

(** Once [resume()] and [decodeAudioData] have settled the card plays. *)
Example plays_after_all_awaits :
  advanceAll briefing
    [Press; Speech (speech "AAD/fw==") browser; Resumed true; Decoded true]
    fresh
  = Some (mkSession playing None).
Proof. vm_compute. reflexivity. Qed.

(** A [resume()] that rejects ends the call in the idle card with the
    error message. *)
Example rejected_resume_recovers :
  option_map (fun s => (phase (card s), audioError (card s), waiting s))
    (advanceAll briefing
       [Press; Speech (speech "AAD/fw==") browser; Resumed false] fresh)
  = Some (Idle, Some audioErrorMessage, None).
Proof. vm_compute. reflexivity. Qed.

Lemma waits_at_resume_attainable :
  attainable briefing
    (mkSession (mkCard true false None (Some suspended) None [] 0 [] [])
       (Some (AtResume "AAD/fw=="))).
Proof.
  apply (advanceAll_attainable briefing
           [Press; Speech (speech "AAD/fw==") browser] fresh).
  - apply attain_fresh.
  - apply waits_at_resume.
Qed.

Lemma generation_ends_when_awaits_settle_witness :
  phase (mkCard true false None (Some suspended) None [] 0 [] []) = Generating
  /\ exists s',
       advance briefing (Resumed false)
         (mkSession (mkCard true false None (Some suspended) None [] 0 [] [])
            (Some (AtResume "AAD/fw==")))
       = Some s'.
Proof.
  split; [reflexivity |].
  destruct (generation_ends_when_awaits_settle briefing _
              waits_at_resume_attainable eq_refl)
    as (_ & _ & _ & _ & Hres & _).
  apply (Hres "AAD/fw=="%string eq_refl false).
Defined.

End AsyncScenarios.

(* ===================================================================== *)
(** * Stop, and the end notification it causes *)
(* ===================================================================== *)

Section StopClaims.
Import Service Card.

Variable result : Result.

(** C3 (as the code has it): on a playing card the stop action returns
    normally and halts the one source node at once, but the card stays in
    the playing phase, the node still there and the ref still set; the
    only event that can change the card from then on is the end
    notification of that node, which is enabled, removes the node, clears
    the ref and leaves the card idle.  On an idle card the stop call finds
    no source node: it returns normally and changes nothing. *)
Theorem stop_halts_and_end_releases (c : Card) :
  reachable result c ->
  (phase c = Playing ->
     exists nd c1,
       nodes c = [nd] /\ sourceNodeRef c = Some (node_id nd)
       /\ handleAudioAction result c = (c1, inr tt)
       /\ step result Click c = Some c1
       /\ c1 = with_nodes [set_status Halted nd] c
       /\ phase c1 = Playing
       /\ sourceNodeRef c1 = Some (node_id nd)
       /\ (forall e c',
             step result e c1 = Some c' ->
             (e = Click /\ c' = c1)
             \/ (e = Ended (node_id nd) /\ phase c' = Idle
                 /\ nodes c' = [] /\ sourceNodeRef c' = None))
       /\ (exists c2,
             step result (Ended (node_id nd)) c1 = Some c2
             /\ phase c2 = Idle /\ nodes c2 = []
             /\ sourceNodeRef c2 = None))
  /\ (phase c = Idle ->
        stopCurrentSource c = (c, inr tt) /\ nodes c = []).
Proof.
  intros Hr. split; intros Hph.
  - destruct (stop_then_end result c Hr Hph)
      as (nd & Hnds & Href & Hact & Hclick & Hend).
    assert (Hr1 : reachable result (with_nodes [set_status Halted nd] c))
      by (eapply reach_step; eassumption).
    assert (Hph1 : phase (with_nodes [set_status Halted nd] c) = Playing)
      by exact Hph.
    exists nd, (with_nodes [set_status Halted nd] c).
    split; [exact Hnds |]. split; [exact Href |]. split; [exact Hact |].
    split; [exact Hclick |]. split; [reflexivity |].
    split; [exact Hph1 |]. split; [exact Href |]. split.
    + intros e c' Hstep.
      destruct (step_cases result e _ c' Hr1 Hstep)
        as [(-> & -> & _)
           | [(-> & _ & nd' & Hnds' & _ & _ & ->)
             | [(_ & Hidle & _)
               | [(Hgen & _)
                 | [(Hgen & _)
                   | (_ & nd' & -> & Hnds' & ->)]]]]].
      * left. split; reflexivity.
      * left. split; [reflexivity |].
        cbn in Hnds'. injection Hnds' as <-. reflexivity.
      * rewrite Hph1 in Hidle. discriminate Hidle.
      * rewrite Hph1 in Hgen. discriminate Hgen.
      * rewrite Hph1 in Hgen. discriminate Hgen.
      * right. cbn in Hnds'. injection Hnds' as <-.
        split; [reflexivity |]. repeat split.
    + eexists. split; [exact Hend |]. repeat split.
  - apply phase_Idle in Hph. destruct Hph as [_ Ep].
    destruct (not_playing_no_source result c Hr Ep) as [Hnds Href].
    split; [apply stop_without_source; assumption | assumption].
Qed.

End StopClaims.

Section StopScenarios.
Import Service Card Scenario.

(** C3, as the specification states it, fails: after stop on the playing
    card the phase is still Playing, and the source node is still there
    and still referenced; the card is idle only after the end
    notification. *)
Lemma stop_keeps_playing_counterexample :
  exists c1,
    handleAudioAction briefing playing = (c1, inr tt)
    /\ step briefing Click playing = Some c1
    /\ phase c1 = Playing
    /\ List.length (nodes c1) = 1%nat
    /\ sourceNodeRef c1 = Some 0%nat
    /\ ~ (phase c1 = Idle /\ nodes c1 = [] /\ sourceNodeRef c1 = None).
Proof.
  eexists.
  split; [vm_compute; reflexivity |].
  split; [vm_compute; reflexivity |].
  split; [reflexivity |]. split; [reflexivity |]. split; [reflexivity |].
  intros [H _]. discriminate H.
Qed.

Lemma stop_halts_and_end_releases_witness :
  reachable briefing playing
  /\ exists c1 c2,
       step briefing Click playing = Some c1 /\ phase c1 = Playing
       /\ step briefing (Ended 0) c1 = Some c2 /\ phase c2 = Idle
       /\ nodes c2 = [].
Proof.
  split; [exact playing_reachable |].
  destruct (stop_halts_and_end_releases briefing playing playing_reachable)
    as [Hplay _].
  destruct (Hplay eq_refl)
    as (nd & c1 & Hnds & _ & _ & Hclick & _ & Hph1 & _ & _ & c2 & Hend & Hph2
        & Hn2 & _).
  cbn in Hnds. injection Hnds as <-.
  exists c1, c2. auto.
Defined.

End StopScenarios.
